(** * String columns of clickhouse-cpp: a shallow embedding

    The development follows [clickhouse/columns/string.cpp]: the fixed-width
    column [ColumnFixedString] (one contiguous [std::string]) and the
    variable-width column [ColumnString] (an arena of non-relocating blocks
    plus views into it), together with their wire load and save.

    Conventions.
    - [size_t] and [uint64_t] are 64-bit unsigned integers, modelled as [Z]
      with the wrap-around written out ([wrap]).
    - A byte is a [Byte.byte]; [std::string] payloads and [std::string_view]
      arguments that are copied at once are [list byte].
    - A method that mutates its object is a computation in the monad [M]:
      it takes the object's state and returns an outcome together with the
      state the object is left in.  An outcome is a normal return, a thrown
      C++ exception, or undefined behaviour.
    - A [const] method is a function of the object's state. *)

From Stdlib Require Import ZArith Lia List.
From Stdlib Require Import Strings.Byte.
From Stdlib Require Import Floats.SpecFloat.
From stdpp Require Import base tactics option list numbers.

Local Open Scope Z_scope.

Ltac Zify.zify_post_hook ::= Z.to_euclidean_division_equations.

(** ** Machine integers *)

Definition SIZE_MAX : Z := 2 ^ 64 - 1.

(** Unsigned 64-bit arithmetic: every result is reduced modulo [2^64]. *)
Definition wrap (z : Z) : Z := z mod 2 ^ 64.

Definition is_size_t (z : Z) : Prop := 0 <= z <= SIZE_MAX.

(** ** Bytes *)

Abbreviation bytes := (list byte).

(** [s.size()] *)
Definition len (s : bytes) : Z := Z.of_nat (length s).

(** The [n] bytes of [l] from offset [pos]. *)
Definition sub (pos n : Z) (l : bytes) : bytes :=
  take (Z.to_nat n) (drop (Z.to_nat pos) l).

(** [memcpy(&buf[pos], src, src.size())] into a buffer that has the room. *)
Definition write_at (pos : Z) (src buf : bytes) : bytes :=
  take (Z.to_nat pos) buf ++ src ++ drop (Z.to_nat pos + length src) buf.

(** Reading a view of [n] bytes at offset [pos] of a buffer: defined only when
    the view lies inside the buffer. *)
Definition read_span (pos n : Z) (buf : bytes) : option bytes :=
  if bool_decide (0 <= pos /\ 0 <= n /\ pos + n <= len buf)
  then Some (sub pos n buf) else None.

(** ** Outcomes of a call and the state monad of a mutable object *)

Inductive exn : Type :=
| ValidationError
| out_of_range
| bad_cast
| length_error.

Inductive outcome (A : Type) : Type :=
| Ret (a : A)
| Throw (e : exn)
| Undefined.
Arguments Ret {A} a.
Arguments Throw {A} e.
Arguments Undefined {A}.

Definition M (S A : Type) : Type := S -> outcome A * S.

Definition ret {S A} (a : A) : M S A := fun s => (Ret a, s).

Definition bind {S A B} (m : M S A) (k : A -> M S B) : M S B :=
  fun s =>
    match m s with
    | (Ret a, s') => k a s'
    | (Throw e, s') => (Throw e, s')
    | (Undefined, s') => (Undefined, s')
    end.

Definition throw {S A} (e : exn) : M S A := fun s => (Throw e, s).
Definition undefined {S A} : M S A := fun s => (Undefined, s).
Definition get {S} : M S S := fun s => (Ret s, s).
Definition put {S} (s : S) : M S unit := fun _ => (Ret tt, s).
Definition modify {S} (f : S -> S) : M S unit := fun s => (Ret tt, f s).

(** A call on a [const] object or a free function that may throw. *)
Definition lift {S A} (o : outcome A) : M S A := fun s => (o, s).

Declare Scope cxx_scope.
Delimit Scope cxx_scope with cxx.
Notation "'let*' x := m 'in' k" := (bind m (fun x => k))
  (at level 10, x pattern, m at level 100, k at level 200) : cxx_scope.
Notation "m ;;; k" := (bind m (fun _ => k))
  (at level 100, k at level 200, right associativity) : cxx_scope.
Notation "'when' b 'then' m" := (if b then m else ret tt)
  (at level 10, b at level 98, m at level 200) : cxx_scope.

(** [for (size_t i = from; i < from + n; ++i) body(i)] *)
Fixpoint for_range {S} (from : Z) (n : nat) (body : Z -> M S unit) : M S unit :=
  match n with
  | O => ret tt
  | S n' => bind (body from) (fun _ => for_range (from + 1) n' body)
  end.

(** ** The size limit of [std::vector]

    [v.reserve(n)] throws [std::length_error] when [n] exceeds
    [v.max_size()], before anything is allocated.  The limit is up to the
    implementation: libstdc++ on a 64-bit target has [PTRDIFF_MAX] divided
    by the size of an element.  Below the limit the storage is taken to be
    granted; how much a vector has reserved is not modelled. *)
Definition PTRDIFF_MAX : Z := 2 ^ 63 - 1.

Definition vector_max_size (sizeof_T : Z) : Z := PTRDIFF_MAX / sizeof_T.

(** [v.reserve(new_cap)] for elements of [sizeof_T] bytes *)
Definition vector_reserve {S} (sizeof_T new_cap : Z) : M S unit :=
  if vector_max_size sizeof_T <? new_cap then throw length_error
  else ret tt.

(** ** C strings *)


(** ** [std::string] as the columns use it

    The characters and the reserved capacity.  How much a growing string
    reserves beyond what is asked is left to the implementation; the model
    takes the least the standard allows.  Allocation is assumed to succeed. *)
Module basic_string.

Record t : Type := mk { chars : bytes; capacity : Z }.

Definition empty : t := {| chars := []; capacity := 0 |}.

Definition size (s : t) : Z := len (chars s).

Definition reserve (new_cap : Z) (s : t) : t :=
  {| chars := chars s; capacity := Z.max (capacity s) new_cap |}.

(** [s.insert(s.size(), str)] and [s.insert(s.end(), first, last)] *)
Definition insert_end (str : bytes) (s : t) : t :=
  {| chars := chars s ++ str;
     capacity := Z.max (capacity s) (len (chars s ++ str)) |}.

(** [s.resize(n, ch)] *)
Definition resize (n : Z) (ch : byte) (s : t) : t :=
  if n <=? size s
  then {| chars := take (Z.to_nat n) (chars s); capacity := capacity s |}
  else {| chars := chars s ++ replicate (Z.to_nat (n - size s)) ch;
          capacity := Z.max (capacity s) n |}.

Definition clear (s : t) : t := {| chars := []; capacity := capacity s |}.

(** [s.substr(pos, count)] *)
Definition substr (pos count : Z) (s : t) : outcome t :=
  if size s <? pos then Throw out_of_range
  else
    let r := sub pos (Z.min count (size s - pos)) (chars s) in
    Ret {| chars := r; capacity := len r |}.

End basic_string.

(** ** Streams and the wire codec *)

(** An [InputStream] is the bytes still to be read, an [OutputStream] the
    bytes written so far. *)
Abbreviation InputStream := (list byte) (only parsing).
Abbreviation OutputStream := (list byte) (only parsing).

Module WireFormat.

(** Modelled from the spec: [WireFormat::ReadBytes] of base/wire_format.h,
    which is not part of the sources at hand.  [read_bytes(dst, n) -> bool]
    fills [dst] with the next [n] bytes and reports success; on a stream
    that has fewer it reports failure.  The spec gives no more than the
    flag for a failed read: what it has put into [dst] and taken from the
    stream is left open.  The model gives a failed read no effect, and no
    statement below speaks of the bytes or of the stream after one. *)
Definition ReadBytes (input : InputStream) (n : Z)
  : bool * bytes * InputStream :=
  if n <=? len input
  then (true, take (Z.to_nat n) input, drop (Z.to_nat n) input)
  else (false, [], input).

(** Modelled from the spec: [WireFormat::WriteBytes], [write_bytes(src, n)]. *)
Definition WriteBytes (output : OutputStream) (buf : bytes) : OutputStream :=
  output ++ buf.

Definition byte_of_Z (z : Z) : byte :=
  default x00 (Byte.of_N (Z.to_N (z mod 256))).

Definition Z_of_byte (b : byte) : Z := Z.of_N (Byte.to_N b).

(** The [k] low-order bytes of [z], least significant first. *)
Fixpoint le_encode (k : nat) (z : Z) : bytes :=
  match k with
  | O => []
  | S k' => byte_of_Z z :: le_encode k' (z / 256)
  end.

Fixpoint le_decode (bs : bytes) : Z :=
  match bs with
  | [] => 0
  | b :: bs' => Z_of_byte b + 256 * le_decode bs'
  end.

(** Modelled from the spec: the length prefix is an 8-byte unsigned integer
    of native width in host order, not a variable-length integer; the host
    is taken to be little-endian. *)
Definition WriteUInt64 (output : OutputStream) (value : Z) : OutputStream :=
  output ++ le_encode 8 value.

(** Modelled from the spec: [read_u64() -> Optional<u64>], failing on a
    short stream; a failed read is given no effect, as for [ReadBytes]. *)
Definition ReadUInt64 (input : InputStream) : option Z * InputStream :=
  if 8 <=? len input
  then (Some (le_decode (take 8 input)), drop 8 input)
  else (None, input).

(** Modelled from the spec: [write_string(span)] writes the length as a
    64-bit prefix followed by the raw bytes. *)
Definition WriteString (output : OutputStream) (value : bytes) : OutputStream :=
  WriteBytes (WriteUInt64 output (len value)) value.

End WireFormat.

Definition DEFAULT_BLOCK_SIZE : Z := 4096.

(** [ComputeTotalSize(strings, begin, len)] over the sizes of the container's
    elements; the default [len = -1] is [SIZE_MAX]. *)
Definition ComputeTotalSize (sizes : list Z) (begin len : Z) : Z :=
  if begin <? Z.of_nat (length sizes)
  then
    let len := Z.min len (wrap (Z.of_nat (length sizes) - begin)) in
    foldl (fun result sz => wrap (result + sz)) 0
          (take (Z.to_nat len) (drop (Z.to_nat begin) sizes))
  else 0.

(** [RoundUp(numToRound, multiple)]; [numToRound >= 0] holds of every
    [size_t]. *)
Definition RoundUp (numToRound multiple : Z) : Z :=
  let isPositive := if 0 <=? numToRound then 1 else 0 in
  wrap (wrap (numToRound + wrap (isPositive * wrap (multiple - 1))) / multiple
        * multiple).

(** ** Columns behind a [Column&] or [ColumnRef]

    The two concrete kinds of this file; [As<T>()] and [dynamic_cast<T&>]
    look at the tag. *)
Inductive Column_ (F V : Type) : Type :=
| IsFixedString (c : F)
| IsString (c : V).
Arguments IsFixedString {F V} c.
Arguments IsString {F V} c.

(** ** ColumnFixedString *)

Module ColumnFixedString.

Record t : Type := mk { string_size_ : Z; data_ : basic_string.t }.

(** A [std::string_view] into [data_]: offset of its first byte, length. *)
Record string_view : Type := view { sv_pos : Z; sv_len : Z }.

(** The bytes a view denotes while [data_] is as it was when the view was
    made; nothing when the view reaches past the buffer. *)
Definition view_bytes (c : t) (v : string_view) : option bytes :=
  read_span (sv_pos v) (sv_len v) (basic_string.chars (data_ c)).

(** [ColumnFixedString::ColumnFixedString(size_t n)] *)
Definition make (n : Z) : t :=
  {| string_size_ := n; data_ := basic_string.empty |}.

Definition set_data (f : basic_string.t -> basic_string.t) (c : t) : t :=
  {| string_size_ := string_size_ c; data_ := f (data_ c) |}.

Definition Reserve (new_cap : Z) : M t unit :=
  modify (fun c =>
    set_data (basic_string.reserve (wrap (string_size_ c * new_cap))) c).

Local Open Scope cxx_scope.

(** [ColumnFixedString::Append(std::string_view str)] *)
Definition Append (str : bytes) : M t unit :=
  let* c := get in
  if string_size_ c <? len str then throw ValidationError
  else
    (when basic_string.capacity (data_ c) - basic_string.size (data_ c)
            <? len str
     then
       let new_size :=
         wrap ((wrap (basic_string.size (data_ c) + string_size_ c)
                / DEFAULT_BLOCK_SIZE + 1) * DEFAULT_BLOCK_SIZE) in
       modify (set_data (basic_string.reserve new_size))) ;;;
    modify (set_data (basic_string.insert_end str)) ;;;
    when len str <? string_size_ c
    then
      let padding_size := wrap (string_size_ c - len str) in
      modify (fun c =>
        set_data (basic_string.resize
                    (wrap (basic_string.size (data_ c) + padding_size)) x00) c).

Definition Clear : M t unit := modify (set_data basic_string.clear).

(** [ColumnFixedString::At(size_t n)]; [data_.at(pos)] is bounds-checked. *)
Definition At (n : Z) (c : t) : outcome string_view :=
  let pos := wrap (n * string_size_ c) in
  if pos <? basic_string.size (data_ c)
  then Ret {| sv_pos := pos; sv_len := string_size_ c |}
  else Throw out_of_range.

Definition FixedSize (c : t) : Z := string_size_ c.

(** [ColumnFixedString::Size()]; dividing by a zero [string_size_] is
    undefined. *)
Definition Size (c : t) : outcome Z :=
  if string_size_ c =? 0 then Undefined
  else Ret (basic_string.size (data_ c) / string_size_ c).

(** [ColumnFixedString::LoadBody(InputStream*, size_t rows)]: the outcome
    carries the returned flag and what is left of the stream.
    [data_.resize] is taken to get its storage: the [std::length_error]
    and [std::bad_alloc] it throws for sizes the implementation or the
    system does not grant are not modelled, so what is stated of a call
    with a row count of the caller's choosing is stated of the calls that
    return. *)
Definition LoadBody (input : InputStream) (rows : Z)
  : M t (bool * InputStream) :=
  modify (fun c =>
    set_data (basic_string.resize (wrap (string_size_ c * rows)) x00) c) ;;;
  let* c := get in
  let '(ok, got, rest) :=
    WireFormat.ReadBytes input (basic_string.size (data_ c)) in
  modify (set_data (fun d =>
    {| basic_string.chars := write_at 0 got (basic_string.chars d);
       basic_string.capacity := basic_string.capacity d |})) ;;;
  if negb ok then ret (false, rest) else ret (true, rest).

(** [ColumnFixedString::SaveBody(OutputStream* output)] *)
Definition SaveBody (output : OutputStream) (c : t) : OutputStream :=
  WireFormat.WriteBytes output (basic_string.chars (data_ c)).

(** [ColumnFixedString::Slice(size_t begin, size_t len)] *)
Definition Slice (begin len : Z) (c : t) : outcome t :=
  let result := make (string_size_ c) in
  match Size c with
  | Ret sz =>
      if begin <? sz then
        let b := wrap (begin * string_size_ c) in
        let l := wrap (len * string_size_ c) in
        match basic_string.substr b
                (Z.min (wrap (basic_string.size (data_ c) - b)) l) (data_ c)
        with
        | Ret d => Ret (set_data (fun _ => d) result)
        | Throw e => Throw e
        | Undefined => Undefined
        end
      else Ret result
  | Throw e => Throw e
  | Undefined => Undefined
  end.

Definition MemoryUsage (c : t) : Z := basic_string.capacity (data_ c).

Definition CloneEmpty (c : t) : t := make (string_size_ c).

(** [column->As<ColumnFixedString>()] *)
Definition As {V} (column : Column_ t V) : option t :=
  match column with IsFixedString c => Some c | IsString _ => None end.

(** [ColumnFixedString::Append(ColumnRef column)], for a column other than
    the receiver. *)
Definition Append_column {V} (column : Column_ t V) : M t unit :=
  match As column with
  | Some col =>
      let* c := get in
      when string_size_ c =? string_size_ col
      then modify (set_data (basic_string.insert_end
                               (basic_string.chars (data_ col))))
  | None => ret tt
  end.

(** [ColumnFixedString::Swap(Column& other)]: the state is the receiver
    and [other]. *)
Definition Swap {V} : M (t * Column_ t V) unit :=
  let* st := get in
  let self := fst st in
  match As (snd st) with
  | None => throw bad_cast
  | Some col =>
      put ({| string_size_ := string_size_ col; data_ := data_ col |},
           IsFixedString {| string_size_ := string_size_ self;
                            data_ := data_ self |})
  end.

End ColumnFixedString.

(** ** Double precision, as far as the size estimate needs it

    [ComputeValueSizeEstimation] divides two [size_t] in [double].  A finite
    non-negative double is [mant * 2^expo]; a positive ratio of integers is
    rounded to 53 significant bits, to nearest, ties to even.  Quotients of
    two 64-bit integers stay far inside the exponent range of binary64, so
    neither overflow nor subnormal numbers are modelled. *)
Module binary64.

Record double : Type := mk { mant : Z; expo : Z }.

(** [floor (log2 (a / b))] for positive [a] and [b]. *)
Definition ilog2 (a b : Z) : Z :=
  let d := Z.log2 a - Z.log2 b in
  if b * 2 ^ Z.max 0 d <=? a * 2 ^ Z.max 0 (- d) then d else d - 1.

(** The integer nearest to [p / q], ties to even, for [0 <= p] and [0 < q]. *)
Definition rne (p q : Z) : Z :=
  let f := p / q in
  let r := p mod q in
  if 2 * r <? q then f
  else if q <? 2 * r then f + 1
  else if Z.even f then f else f + 1.

(** The double nearest to [a / b], for [0 <= a] and [0 < b]. *)
Definition round_ratio (a b : Z) : double :=
  if a <=? 0 then {| mant := 0; expo := 0 |}
  else
    let e := ilog2 a b - 52 in
    {| mant := rne (a * 2 ^ Z.max 0 (- e)) (b * 2 ^ Z.max 0 e); expo := e |}.

(** [static_cast<double>(n)] of an unsigned integer *)
Definition of_size_t (n : Z) : double := round_ratio n 1.

(** [x / y] for a positive [y] *)
Definition div (x y : double) : double :=
  round_ratio (mant x * 2 ^ Z.max 0 (expo x - expo y))
              (mant y * 2 ^ Z.max 0 (expo y - expo x)).

(** [std::ceil(x)], as the integer it denotes *)
Definition ceil (x : double) : Z :=
  if 0 <=? expo x then mant x * 2 ^ expo x
  else - (- mant x / 2 ^ (- expo x)).

(** Conversion of an integer-valued double to [size_t]: undefined when the
    value does not fit. *)
Definition to_size_t (v : Z) : outcome Z :=
  if v <=? SIZE_MAX then Ret v else Undefined.

(** *** A cross-check against the Standard Library

    [SpecFloat] specifies the IEEE 754 operations on [spec_float]; with
    precision 53 and maximal exponent 1024 it is binary64.  The comparison
    below is run on samples, see [binary64_agrees_on_samples]. *)

(** [static_cast<double>(n)] according to [SpecFloat]. *)
Definition spec_of_size_t (n : Z) : spec_float :=
  binary_normalize 53 1024 n 0 false.

(** [x] and [y] denote the same number. *)
Definition same_value (x : double) (y : spec_float) : bool :=
  match y with
  | S754_zero false => mant x =? 0
  | S754_finite false m e =>
      let low := Z.min (expo x) e in
      mant x * 2 ^ (expo x - low) =? Z.pos m * 2 ^ (e - low)
  | _ => false
  end.

Definition agrees_with_SpecFloat (a b : Z) : bool :=
  same_value (of_size_t a) (spec_of_size_t a)
  && same_value (of_size_t b) (spec_of_size_t b)
  && same_value (div (of_size_t a) (of_size_t b))
                (SFdiv 53 1024 (spec_of_size_t a) (spec_of_size_t b)).

(** Small operands, and operands around [2^53] and [2^64] where rounding
    sets in. *)
Definition samples : list (Z * Z) :=
  let small := seqZ 0 40 in
  let large := [2 ^ 52 - 1; 2 ^ 52 + 1; 2 ^ 53 - 1; 2 ^ 53; 2 ^ 53 + 1;
                2 ^ 53 + 2; 2 ^ 53 + 3; 2 ^ 54 + 2; 2 ^ 54 + 6;
                2 ^ 63 + 1024; 2 ^ 63 + 1025; 2 ^ 64 - 1025; 2 ^ 64 - 1024;
                2 ^ 64 - 1; 123456789012345678; 9999999999999999999] in
  a ← small ++ large; b ← seqZ 1 39 ++ large; [(a, b)].

End binary64.

(** Modelled from the spec: [ColumnString::DEFAULT_ESTIMATION] is declared in
    string.h, which is not part of the sources at hand; the spec gives 1 as
    the least value of a recomputed estimate. *)
Definition DEFAULT_ESTIMATION : Z := 1.

(** [ComputeValueSizeEstimation(total_size, number_of_items)] *)
Definition ComputeValueSizeEstimation (total_size number_of_items : Z)
  : outcome Z :=
  let number_of_items := if number_of_items =? 0 then 1 else number_of_items in
  match binary64.to_size_t
          (binary64.ceil (binary64.div (binary64.of_size_t total_size)
                                       (binary64.of_size_t number_of_items)))
  with
  | Ret estimation =>
      Ret (if estimation =? 0 then DEFAULT_ESTIMATION else estimation)
  | Throw e => Throw e
  | Undefined => Undefined
  end.

(** [EstimateNextBlockSize(value_size_estimation)] *)
Definition EstimateNextBlockSize (value_size_estimation : Z) : Z :=
  let estimated_number_of_items_per_block := 32 in
  Z.max DEFAULT_BLOCK_SIZE
        (wrap (value_size_estimation * estimated_number_of_items_per_block)).

(** ** ColumnString *)

Module ColumnString.

Local Open Scope cxx_scope.

(** *** The arena block

    [data_] is the storage of [capacity] bytes obtained by
    [new CharT[capacity]]; it never moves.  The storage starts out
    uninitialised: the model fills it with zero bytes.  Allocation is
    assumed to succeed. *)
Record Block : Type :=
  mkBlock { size : Z; capacity : Z; data_ : bytes }.

(** [Block::Block(size_t starting_capacity)] *)
Definition Block_make (starting_capacity : Z) : Block :=
  {| size := 0; capacity := starting_capacity;
     data_ := replicate (Z.to_nat starting_capacity) x00 |}.

Definition GetAvailable (b : Block) : Z := wrap (capacity b - size b).

(** [Block::AppendUnsafe(str)]: copies after the used part and returns the
    offset at which the returned view starts.  Copying past the end of the
    storage is undefined. *)
Definition Block_AppendUnsafe (str : bytes) : M Block Z :=
  fun b =>
    if size b + len str <=? capacity b then
      let pos := size b in
      (Ret pos, {| size := wrap (size b + len str); capacity := capacity b;
                   data_ := write_at pos str (data_ b) |})
    else (Undefined, b).

(** [Block::GetCurrentWritePos()], as an offset into the storage *)
Definition GetCurrentWritePos (b : Block) : Z := size b.

(** [Block::ConsumeTailAsStringViewUnsafe(len)]: returns the offset at
    which the returned view starts. *)
Definition ConsumeTailAsStringViewUnsafe (n : Z) : M Block Z :=
  fun b =>
    let start := size b in
    (Ret start, {| size := wrap (size b + n); capacity := capacity b;
                   data_ := data_ b |}).

(** *** Views

    Where the first byte of a [std::string_view] kept in [items_] lives:
    in the storage of the [i]-th block of the same column, at the start of
    the [k]-th string of [append_data_], or in memory of the caller. *)
Inductive pointer : Type :=
| in_block (i : nat) (off : Z)
| in_append_data (k : nat)
| in_caller (a : nat) (off : Z).

Record string_view : Type := view { sv_data : pointer; sv_len : Z }.

(** [sizeof(std::string_view)]: a pointer and a length, on a 64-bit
    target. *)
Definition sizeof_string_view : Z := 16.

(** Modelled from the spec: the members of [ColumnString] are declared in
    string.h, which is not part of the sources at hand.  [items_] and
    [blocks_] are vectors; [append_data_] is the ordered sequence of
    exclusively-owned buffers of the spec, a container that leaves its
    strings where they are when it grows, so the [k]-th owned string is
    found at index [k] for good.  The reserved capacity of the vectors is
    not modelled: of [items_.reserve(n)] the model keeps the
    [std::length_error] for an [n] of the caller's choosing above the
    limit ([Reserve], the pre-sized constructor); in the constructors from
    a list and in [Slice], [n] is the size of a container at hand and
    within the limit. *)
Record t : Type := mk {
  items_ : list string_view;
  blocks_ : list Block;
  append_data_ : list bytes;
  value_size_estimation_ : Z;
  next_block_size_ : Z
}.

(** The buffers of the caller that borrowed views point into. *)
Abbreviation caller_memory := (list bytes).

(** The bytes a view of column [c] denotes; nothing when it does not lie
    inside a live buffer. *)
Definition view_bytes (mem : caller_memory) (c : t) (v : string_view)
  : option bytes :=
  match sv_data v with
  | in_block i off =>
      match blocks_ c !! i with
      | Some b => read_span off (sv_len v) (data_ b)
      | None => None
      end
  | in_append_data k =>
      match append_data_ c !! k with
      | Some s => read_span 0 (sv_len v) s
      | None => None
      end
  | in_caller a off =>
      match mem !! a with
      | Some s => read_span off (sv_len v) s
      | None => None
      end
  end.

Definition set_items (f : list string_view -> list string_view) (c : t) : t :=
  {| items_ := f (items_ c); blocks_ := blocks_ c;
     append_data_ := append_data_ c;
     value_size_estimation_ := value_size_estimation_ c;
     next_block_size_ := next_block_size_ c |}.

Definition set_blocks (f : list Block -> list Block) (c : t) : t :=
  {| items_ := items_ c; blocks_ := f (blocks_ c);
     append_data_ := append_data_ c;
     value_size_estimation_ := value_size_estimation_ c;
     next_block_size_ := next_block_size_ c |}.

Definition set_append_data (f : list bytes -> list bytes) (c : t) : t :=
  {| items_ := items_ c; blocks_ := blocks_ c;
     append_data_ := f (append_data_ c);
     value_size_estimation_ := value_size_estimation_ c;
     next_block_size_ := next_block_size_ c |}.

Definition set_value_size_estimation (e : Z) (c : t) : t :=
  {| items_ := items_ c; blocks_ := blocks_ c;
     append_data_ := append_data_ c;
     value_size_estimation_ := e;
     next_block_size_ := next_block_size_ c |}.

Definition set_next_block_size (n : Z) (c : t) : t :=
  {| items_ := items_ c; blocks_ := blocks_ c;
     append_data_ := append_data_ c;
     value_size_estimation_ := value_size_estimation_ c;
     next_block_size_ := n |}.

(** [v.emplace_back(x)] *)
Definition emplace_back {A} (x : A) (v : list A) : list A := v ++ [x].

(** A member function of [Block] run on [v.back()]; [back()] of an empty
    vector is undefined. *)
Definition on_back {A} (m : M Block A) : M (list Block) A :=
  fun v =>
    match list.last v with
    | None => (Undefined, v)
    | Some b =>
        let '(o, b') := m b in
        (o, <[pred (length v) := b']> v)
    end.

(** A computation on [blocks_] run inside the column. *)
Definition in_blocks {A} (m : M (list Block) A) : M t A :=
  fun c =>
    let '(o, v) := m (blocks_ c) in
    (o, set_blocks (fun _ => v) c).

(** The view that [blocks_.back().AppendUnsafe(str)] returns. *)
Definition back_AppendUnsafe (str : bytes) : M (list Block) string_view :=
  let* pos := on_back (Block_AppendUnsafe str) in
  let* v := get in
  ret {| sv_data := in_block (pred (length v)) pos; sv_len := len str |}.

(** The statements [body] run on a new object [init], as in a constructor:
    the object is handed on once the body has run to its end. *)
Definition construct (init : t) (body : M t unit) : outcome t :=
  match body init with
  | (Ret _, c) => Ret c
  | (Throw e, _) => Throw e
  | (Undefined, _) => Undefined
  end.

(** [ColumnString::ColumnString(EstimatedValueSize value_size_estimation)] *)
Definition make (value_size_estimation : Z) : outcome t :=
  construct
    {| items_ := []; blocks_ := []; append_data_ := [];
       value_size_estimation_ := value_size_estimation;
       next_block_size_ := DEFAULT_BLOCK_SIZE |}
    (when value_size_estimation <? 0 then throw ValidationError).

(** [ColumnString::ColumnString(size_t element_count, EstimatedValueSize)] *)
Definition make_sized (element_count value_size_estimation : Z) : outcome t :=
  match make value_size_estimation with
  | Ret c =>
      construct c
        (vector_reserve sizeof_string_view element_count ;;;
         modify (set_blocks (emplace_back (Block_make
           (Z.max DEFAULT_BLOCK_SIZE
              (RoundUp (wrap (element_count * value_size_estimation_ c))
                       DEFAULT_BLOCK_SIZE))))))
  | o => o
  end.

(** [ColumnString::AppendUnsafe(std::string_view str)] *)
Definition AppendUnsafe (str : bytes) : M t unit :=
  let* v := in_blocks (back_AppendUnsafe str) in
  modify (set_items (emplace_back v)).

(** [for (const auto & s : data) body(s)] *)
Fixpoint for_each {S A} (data : list A) (body : A -> M S unit) : M S unit :=
  match data with
  | [] => ret tt
  | s :: rest => body s ;;; for_each rest body
  end.

(** Modelled from the spec: the default argument of the constructor is
    declared in string.h; the estimate starts at the default one. *)
Definition make_default : outcome t := make DEFAULT_ESTIMATION.

(** [ColumnString::ColumnString(const std::vector<std::string>& data)] *)
Definition make_copy (data : list bytes) : outcome t :=
  match make_default with
  | Ret c =>
      construct c
        (let total_size := ComputeTotalSize (len <$> data) 0 SIZE_MAX in
         modify (set_blocks (emplace_back (Block_make total_size))) ;;;
         for_each data AppendUnsafe ;;;
         let* e := lift (ComputeValueSizeEstimation total_size
                           (Z.of_nat (length data))) in
         modify (set_value_size_estimation e))
  | o => o
  end.

(** [append_data_.emplace_back(std::move(d))] followed by a view over
    [append_data_.back()] put at the end of [items_]. *)
Definition emplace_owned (d : bytes) : M t unit :=
  modify (set_append_data (emplace_back d)) ;;;
  let* c := get in
  modify (set_items (emplace_back
    {| sv_data := in_append_data (pred (length (append_data_ c)));
       sv_len := len d |})).

(** [ColumnString::ColumnString(std::vector<std::string>&& data)] *)
Definition make_move (data : list bytes) : outcome t :=
  match make_default with
  | Ret c =>
      construct c
        (for_each data emplace_owned ;;;
         let* c := get in
         let* e := lift (ComputeValueSizeEstimation
                           (ComputeTotalSize (sv_len <$> items_ c) 0 SIZE_MAX)
                           (Z.of_nat (length (items_ c)))) in
         modify (set_value_size_estimation e))
  | o => o
  end.

(** [ColumnString::Reserve(size_t new_cap)] *)
Definition Reserve (new_cap : Z) : M t unit :=
  vector_reserve sizeof_string_view new_cap ;;;
  let* c := get in
  if match list.last (blocks_ c) with
     | None => true
     | Some b => GetAvailable b <? value_size_estimation_ c
     end
  then
    modify (set_blocks (emplace_back
              (Block_make (wrap (new_cap * value_size_estimation_ c)))))
  else
    match list.last (blocks_ c) with
    | None => undefined
    | Some b =>
        let estimated_items_in_next_block :=
          if value_size_estimation_ c =? 0 then new_cap
          else wrap (new_cap - GetAvailable b / value_size_estimation_ c) in
        modify (set_next_block_size
          (Z.max DEFAULT_BLOCK_SIZE
             (wrap (estimated_items_in_next_block
                    * value_size_estimation_ c))))
    end.


(** [ColumnString::Append(std::string_view str)]: the copy append *)
Definition Append (str : bytes) : M t unit :=
  let* c := get in
  (when match list.last (blocks_ c) with
        | None => true
        | Some b => GetAvailable b <? len str
        end
   then
     modify (set_blocks (emplace_back
               (Block_make (Z.max (next_block_size_ c) (len str))))) ;;;
     modify (set_next_block_size
               (EstimateNextBlockSize (value_size_estimation_ c)))) ;;;
  let* v := in_blocks (back_AppendUnsafe str) in
  modify (set_items (emplace_back v)).


(** [ColumnString::Append(std::string&& steal_value)]: the
    ownership-transfer append *)
Definition Append_move (steal_value : bytes) : M t unit :=
  emplace_owned steal_value.

(** [ColumnString::AppendNoManagedLifetime(std::string_view str)]: the
    view of the caller is kept as it is. *)
Definition AppendNoManagedLifetime (a : nat) (off n : Z) : M t unit :=
  modify (set_items (emplace_back
    {| sv_data := in_caller a off; sv_len := n |})).

(** [ColumnString::Clear()] *)
Definition Clear : M t unit :=
  modify (set_items (fun _ => [])) ;;;
  modify (set_blocks (fun _ => [])) ;;;
  modify (set_append_data (fun _ => [])).

(** [ColumnString::At(size_t n)]; [items_.at(n)] is bounds-checked. *)
Definition At (n : Z) (c : t) : outcome string_view :=
  if n <? Z.of_nat (length (items_ c))
  then match items_ c !! Z.to_nat n with
       | Some v => Ret v
       | None => Throw out_of_range
       end
  else Throw out_of_range.

(** [ColumnString::Size()] *)
Definition Size (c : t) : Z := Z.of_nat (length (items_ c)).

(** [ColumnString::CloneEmpty()] *)
Definition CloneEmpty (c : t) : outcome t := make (value_size_estimation_ c).

(** [column->As<ColumnString>()] *)
Definition As {F} (column : Column_ F t) : option t :=
  match column with IsString c => Some c | IsFixedString _ => None end.

(** The copy of the bytes under the [i]-th view of [col]; reading a view
    that is not backed by a live buffer is undefined. *)
Definition item_bytes (mem : caller_memory) (col : t) (i : Z)
  : outcome bytes :=
  match items_ col !! Z.to_nat i with
  | Some v =>
      match view_bytes mem col v with
      | Some s => Ret s
      | None => Undefined
      end
  | None => Undefined
  end.

(** [ColumnString::Append(ColumnRef column)], for a column other than the
    receiver. *)
Definition Append_column {F} (mem : caller_memory) (column : Column_ F t)
  : M t unit :=
  match As column with
  | Some col =>
      let total_size := ComputeTotalSize (sv_len <$> items_ col) 0 SIZE_MAX in
      let* c := get in
      (when match list.last (blocks_ c) with
            | None => true
            | Some b => GetAvailable b <? total_size
            end
       then
         modify (set_blocks (emplace_back
                   (Block_make (Z.max (next_block_size_ c) total_size)))) ;;;
         modify (set_next_block_size
                   (EstimateNextBlockSize (value_size_estimation_ c)))) ;;;
      for_range 0 (length (items_ col)) (fun i =>
        let* s := lift (item_bytes mem col i) in
        AppendUnsafe s)
  | None => ret tt
  end.

(** *** Wire load and save *)

(** The locals [new_items] and [new_blocks] of [LoadBody]; the local
    [block] always points at [new_blocks.back()]. *)
Record loading : Type :=
  mkLoading { new_items : list string_view; new_blocks : list Block }.

Definition in_new_blocks {A} (m : M (list Block) A) : M loading A :=
  fun st =>
    let '(o, v) := m (new_blocks st) in
    (o, {| new_items := new_items st; new_blocks := v |}).

Definition push_new_item (v : string_view) : M loading unit :=
  modify (fun st =>
    {| new_items := emplace_back v (new_items st);
       new_blocks := new_blocks st |}).

(** [WireFormat::ReadBytes] into [block->GetCurrentWritePos()]:
    the bytes received land in the unused tail of the block. *)
Definition receive_into_tail (got : bytes) : M Block unit :=
  fun b =>
    (Ret tt, {| size := size b; capacity := capacity b;
                data_ := write_at (GetCurrentWritePos b) got (data_ b) |}).

(** The loop of [LoadBody] with [n] rows to go; it yields the flag to
    return and the rest of the stream. *)
Fixpoint load_rows (n : nat) (input : InputStream)
  : M loading (bool * InputStream) :=
  match n with
  | O => ret (true, input)
  | S n' =>
      match WireFormat.ReadUInt64 input with
      | (None, rest) => ret (false, rest)
      | (Some len, input) =>
          let* available :=
            in_new_blocks (on_back (fun b => (Ret (GetAvailable b), b))) in
          (when available <? len
           then in_new_blocks (modify (emplace_back
                  (Block_make (Z.max DEFAULT_BLOCK_SIZE len))))) ;;;
          let '(ok, got, input) := WireFormat.ReadBytes input len in
          in_new_blocks (on_back (receive_into_tail got)) ;;;
          if negb ok then ret (false, input)
          else
            let* pos :=
              in_new_blocks (on_back (ConsumeTailAsStringViewUnsafe len)) in
            let* st := get in
            push_new_item {| sv_data := in_block (pred (length (new_blocks st))) pos;
                             sv_len := len |} ;;;
            load_rows n' input
      end
  end.

(** [ColumnString::LoadBody(InputStream* input, size_t rows)]: the outcome
    carries the returned flag and what is left of the stream.
    [new_items.reserve(rows)] and the [new CharT[n]] of a block are taken
    to get their storage: the [std::length_error] and [std::bad_alloc]
    they throw for a row count or a length that is not granted, before any
    member is touched, are not modelled, so what is stated of a call on a
    stream and a row count of any size is stated of the calls that
    return. *)
Definition LoadBody (input : InputStream) (rows : Z)
  : M t (bool * InputStream) :=
  if rows =? 0 then
    modify (set_items (fun _ => [])) ;;;
    modify (set_blocks (fun _ => [])) ;;;
    ret (true, input)
  else
    let '(o, st) :=
      (in_new_blocks (modify (emplace_back (Block_make DEFAULT_BLOCK_SIZE))) ;;;
       load_rows (Z.to_nat rows) input)
        {| new_items := []; new_blocks := [] |} in
    match o with
    | Ret (true, rest) =>
        modify (set_items (fun _ => new_items st)) ;;;
        modify (set_blocks (fun _ => new_blocks st)) ;;;
        ret (true, rest)
    | Ret (false, rest) => ret (false, rest)
    | Throw e => throw e
    | Undefined => undefined
    end.

(** [ColumnString::SaveBody(OutputStream* output)] *)
Fixpoint save_items (mem : caller_memory) (c : t) (items : list string_view)
    (output : OutputStream) : outcome OutputStream :=
  match items with
  | [] => Ret output
  | item :: rest =>
      match view_bytes mem c item with
      | Some s => save_items mem c rest (WireFormat.WriteString output s)
      | None => Undefined
      end
  end.

Definition SaveBody (mem : caller_memory) (output : OutputStream) (c : t)
  : outcome OutputStream :=
  save_items mem c (items_ c) output.

(** [ColumnString::Slice(size_t begin, size_t len)] *)
Definition Slice (mem : caller_memory) (begin len : Z) (c : t) : outcome t :=
  if Z.of_nat (length (items_ c)) <=? begin then CloneEmpty c
  else
    let len := Z.min len (wrap (Z.of_nat (length (items_ c)) - begin)) in
    match make (value_size_estimation_ c) with
    | Ret result =>
        construct result
          (modify (set_blocks (emplace_back (Block_make
             (Z.max DEFAULT_BLOCK_SIZE
                (ComputeTotalSize (sv_len <$> items_ c) begin len))))) ;;;
           for_range begin (Z.to_nat len) (fun i =>
             let* s := lift (item_bytes mem c i) in
             Append s))
    | o => o
    end.

(** [ColumnString::Swap(Column& other)]: the state is the receiver and
    [other]. *)
Definition Swap {F} : M (t * Column_ F t) unit :=
  let* st := get in
  let self := fst st in
  match As (snd st) with
  | None => throw bad_cast
  | Some col =>
      put ({| items_ := items_ col; blocks_ := blocks_ col;
              append_data_ := append_data_ col;
              value_size_estimation_ := value_size_estimation_ self;
              next_block_size_ := next_block_size_ self |},
           IsString {| items_ := items_ self; blocks_ := blocks_ self;
                       append_data_ := append_data_ self;
                       value_size_estimation_ := value_size_estimation_ col;
                       next_block_size_ := next_block_size_ col |})
  end.

End ColumnString.

Abbreviation Column := (Column_ ColumnFixedString.t ColumnString.t).

(** * Specification vocabulary *)

(** Ceiling of [a / b] for a positive [b]. *)
Definition ceil_div (a b : Z) : Z := - (- a / b).

(** The total of the lengths of a list of strings. *)
Definition total_bytes (data : list bytes) : Z :=
  foldr (fun s acc => len s + acc) 0 data.

Module FixedSpec.
Import ColumnFixedString.

(** The invariant of the fixed-width column: a positive element size and
    [k] whole elements in a buffer that fits the address space. *)
Definition holds_rows (c : t) (k : Z) : Prop :=
  0 < string_size_ c /\ 0 <= k /\
  basic_string.size (data_ c) = k * string_size_ c /\
  basic_string.size (data_ c) <= SIZE_MAX.

(** The column holds the rows [l], each of [string_size_] bytes, one after
    the other in [data_]. *)
Definition holds (c : t) (l : list bytes) : Prop :=
  0 < string_size_ c /\
  Forall (fun s => len s = string_size_ c) l /\
  basic_string.chars (data_ c) = concat l /\
  basic_string.size (data_ c) <= SIZE_MAX.

(** What [At(i)] makes visible: the outcome of the call and, when it
    returns a view, the bytes under it. *)
Definition observe (c : t) (i : Z) : outcome (option bytes) :=
  match At i c with
  | Ret v => Ret (view_bytes c v)
  | Throw e => Throw e
  | Undefined => Undefined
  end.


(** A fixed-width column of two rows of two bytes. *)
Definition two_row_column : t :=
  {| string_size_ := 2;
     data_ :=
       {| basic_string.chars := [x61; x62; x78; x00];
          basic_string.capacity := 4096 |} |}.

End FixedSpec.

Module StringSpec.
Import ColumnString.

Definition block_ok (b : Block) : Prop :=
  0 <= size b /\ size b <= capacity b /\ capacity b <= SIZE_MAX /\
  len (data_ b) = capacity b.

(** A view lies in the written part of a block of the column, inside one
    of its owned strings, or inside a live buffer of the caller. *)
Definition view_ok (mem : caller_memory) (c : t) (v : string_view) : Prop :=
  0 <= sv_len v <= SIZE_MAX /\
  match sv_data v with
  | in_block i off =>
      exists b, blocks_ c !! i = Some b /\ 0 <= off /\ off + sv_len v <= size b
  | in_append_data k =>
      exists s, append_data_ c !! k = Some s /\ sv_len v <= len s
  | in_caller a off =>
      exists s, mem !! a = Some s /\ 0 <= off /\ off + sv_len v <= len s
  end.

(** The invariant of the variable-width column. *)
Definition wf (mem : caller_memory) (c : t) : Prop :=
  Forall block_ok (blocks_ c) /\
  Forall (view_ok mem c) (items_ c) /\
  0 <= next_block_size_ c <= SIZE_MAX.

(** The column holds the sequence [l]: the view at each index denotes the
    string at that index. *)
Definition holds (mem : caller_memory) (c : t) (l : list bytes) : Prop :=
  view_bytes mem c <$> items_ c = Some <$> l.

(** Block [b'] is block [b] after more bytes were written behind its used
    part: whatever could be read from the used part of [b] still reads the
    same. *)
Definition block_le (b b' : Block) : Prop :=
  size b <= size b' /\
  forall off n, 0 <= off -> 0 <= n -> off + n <= size b ->
    read_span off n (data_ b') = read_span off n (data_ b).

(** The storage of [c'] extends the storage of [c]: every block and every
    owned string of [c] is still there, at the same index. *)
Definition extends (c c' : t) : Prop :=
  (forall i b, blocks_ c !! i = Some b ->
     exists b', blocks_ c' !! i = Some b' /\ block_le b b') /\
  (forall k s, append_data_ c !! k = Some s -> append_data_ c' !! k = Some s).

(** What [At(i)] makes visible. *)
Definition observe (mem : caller_memory) (c : t) (i : Z)
  : outcome (option bytes) :=
  match At i c with
  | Ret v => Ret (view_bytes mem c v)
  | Throw e => Throw e
  | Undefined => Undefined
  end.

(** The block after [AppendUnsafe(str)]. *)
Definition block_after (b : Block) (str : bytes) : Block :=
  {| size := size b + len str; capacity := capacity b;
     data_ := write_at (size b) str (data_ b) |}.

(** The column in which [Append(str)] finds, or makes, the room. *)
Definition with_room (str : bytes) (c : t) : t :=
  if match list.last (blocks_ c) with
     | None => true
     | Some b => GetAvailable b <? len str
     end
  then set_next_block_size (EstimateNextBlockSize (value_size_estimation_ c))
         (set_blocks (emplace_back
                        (Block_make (Z.max (next_block_size_ c) (len str)))) c)
  else c.

(** The bytes [SaveBody] writes for the rows [l]. *)
Fixpoint wire_rows (l : list bytes) : bytes :=
  match l with
  | [] => []
  | s :: l' => WireFormat.le_encode 8 (len s) ++ s ++ wire_rows l'
  end.

(** The column [c] once the locals of a successful [LoadBody] are swapped
    in. *)
Definition loaded (c : t) (st : loading) : t :=
  set_blocks (fun _ => new_blocks st) (set_items (fun _ => new_items st) c).

(** The column a constructor starts from. *)
Definition fresh (e : Z) : t :=
  {| items_ := []; blocks_ := []; append_data_ := [];
     value_size_estimation_ := e; next_block_size_ := DEFAULT_BLOCK_SIZE |}.

(** A column whose only block is full, as the copying constructor leaves it
    for the list ["ab"]. *)
Definition full_block_column : t :=
  {| items_ := [{| sv_data := in_block 0 0; sv_len := 2 |}];
     blocks_ := [{| size := 2; capacity := 2; data_ := [x61; x62] |}];
     append_data_ := [];
     value_size_estimation_ := 2;
     next_block_size_ := 4096 |}.

(** A column that owns one buffer, as the ownership-transfer append of "a"
    leaves an empty column. *)
Definition owning_column : t :=
  {| items_ := [{| sv_data := in_append_data 0; sv_len := 1 |}];
     blocks_ := [];
     append_data_ := [[x61]];
     value_size_estimation_ := 1;
     next_block_size_ := 4096 |}.

(** The three ways to append one string. *)
Inductive append_op : Type :=
| by_copy (s : bytes)
| by_transfer (s : bytes)
| by_borrow (a : nat) (off n : Z).

Definition run_append (op : append_op) : M t unit :=
  match op with
  | by_copy s => Append s
  | by_transfer s => Append_move s
  | by_borrow a off n => AppendNoManagedLifetime a off n
  end.

(** The string an append hands over; for a borrow, the bytes under the
    view of the caller. *)
Definition appended (mem : caller_memory) (op : append_op) : option bytes :=
  match op with
  | by_copy s => Some s
  | by_transfer s => Some s
  | by_borrow a off n =>
      match mem !! a with
      | Some buf => read_span off n buf
      | None => None
      end
  end.

End StringSpec.

(** * Properties *)

(** ** Arithmetic and byte buffers *)

Ltac size_arith :=
  unfold wrap, is_size_t, SIZE_MAX, DEFAULT_BLOCK_SIZE in *;
  change (2 ^ 64) with 18446744073709551616 in *;
  lia.

Lemma wrap_small z : 0 <= z <= SIZE_MAX -> wrap z = z.
Proof. intros H. unfold wrap. apply Z.mod_small. size_arith. Qed.

Lemma len_nonneg (s : bytes) : 0 <= len s.
Proof. unfold len. lia. Qed.

Lemma len_app (a b : bytes) : len (a ++ b) = len a + len b.
Proof. unfold len. rewrite length_app. lia. Qed.

Lemma len_nil : len [] = 0.
Proof. reflexivity. Qed.

Lemma len_replicate (n : Z) (x : byte) :
  0 <= n -> len (replicate (Z.to_nat n) x) = n.
Proof. intros H. unfold len. rewrite length_replicate. lia. Qed.

Lemma len_take (n : Z) (l : bytes) :
  0 <= n <= len l -> len (take (Z.to_nat n) l) = n.
Proof. unfold len. intros H. rewrite length_take. lia. Qed.

Lemma len_drop (n : Z) (l : bytes) :
  0 <= n <= len l -> len (drop (Z.to_nat n) l) = len l - n.
Proof. unfold len. intros H. rewrite length_drop. lia. Qed.

Lemma read_span_Some pos n buf :
  0 <= pos -> 0 <= n -> pos + n <= len buf ->
  read_span pos n buf = Some (sub pos n buf).
Proof.
  intros. unfold read_span. rewrite bool_decide_eq_true_2; [done | lia].
Qed.

Lemma sub_app_middle (a s b : bytes) :
  sub (len a) (len s) (a ++ s ++ b) = s.
Proof.
  unfold sub, len. rewrite !Nat2Z.id.
  rewrite drop_app_length. by rewrite take_app_length.
Qed.

Lemma len_write_at pos (src buf : bytes) :
  0 <= pos -> pos + len src <= len buf ->
  len (write_at pos src buf) = len buf.
Proof.
  unfold write_at, len. intros.
  rewrite !length_app, length_take, length_drop. lia.
Qed.

(** What was copied is what is read back. *)
Lemma sub_write_at_same pos (src buf : bytes) :
  0 <= pos -> pos + len src <= len buf ->
  sub pos (len src) (write_at pos src buf) = src.
Proof.
  intros Hpos Hroom. unfold write_at.
  assert (Hlen : len (take (Z.to_nat pos) buf) = pos).
  { apply len_take. pose proof (len_nonneg src). lia. }
  rewrite <- Hlen at 1. apply sub_app_middle.
Qed.

(** A copy does not disturb the bytes before it. *)
Lemma sub_write_at_before off n pos (src buf : bytes) :
  0 <= off -> 0 <= n -> off + n <= pos -> pos + len src <= len buf ->
  sub off n (write_at pos src buf) = sub off n buf.
Proof.
  intros Hoff Hn Hle Hroom. unfold sub, write_at.
  pose proof (len_nonneg src) as Hs. unfold len in *.
  rewrite drop_app_le by (rewrite length_take; lia).
  rewrite take_app_le by (rewrite length_drop, length_take; lia).
  rewrite !take_drop_commute, take_take. do 2 f_equal. lia.
Qed.

(** ** The monad *)

Section MonadLaws.
Context {S : Type}.

Lemma bind_get {B} (k : S -> M S B) s : bind get k s = k s s.
Proof. reflexivity. Qed.

Lemma bind_modify {B} (f : S -> S) (k : unit -> M S B) s :
  bind (modify f) k s = k tt (f s).
Proof. reflexivity. Qed.

Lemma bind_ret {A B} (a : A) (k : A -> M S B) s : bind (ret a) k s = k a s.
Proof. reflexivity. Qed.



Lemma bind_assoc {A B C} (m : M S A) (k : A -> M S B) (h : B -> M S C) s :
  bind (bind m k) h s = bind m (fun a => bind (k a) h) s.
Proof. unfold bind. by destruct (m s) as [[]]. Qed.
End MonadLaws.

(** ** The fixed-width column *)

Section Fixed.
Import ColumnFixedString FixedSpec.


Lemma holds_rows_Size c k : holds_rows c k -> Size c = Ret k.
Proof.
  intros (Hn & Hk & Hsz & _). unfold Size.
  destruct (_ =? _) eqn:E; [lia|]. f_equal. rewrite Hsz. nia.
Qed.

(** An in-range [At] returns the view of the slot at that index. *)
Lemma holds_rows_At c k i :
  holds_rows c k -> 0 <= i < k ->
  At i c = Ret {| sv_pos := i * string_size_ c; sv_len := string_size_ c |}.
Proof.
  intros (Hn & Hk & Hsz & Hmax) Hi. unfold At.
  rewrite wrap_small by nia.
  destruct (_ <? _) eqn:E; [done | nia].
Qed.

Lemma holds_rows_observe c k i :
  holds_rows c k -> 0 <= i < k ->
  observe c i =
    Ret (Some (sub (i * string_size_ c) (string_size_ c)
                   (basic_string.chars (data_ c)))).
Proof.
  intros H Hi. unfold observe. rewrite (holds_rows_At c k i H Hi).
  destruct H as (Hn & Hk & Hsz & Hmax).
  unfold view_bytes. simpl. rewrite read_span_Some; [done | nia | lia |].
  unfold basic_string.size in Hsz. nia.
Qed.


Lemma len_concat_rows (n : Z) (l : list bytes) :
  Forall (fun s => len s = n) l -> len (concat l) = Z.of_nat (length l) * n.
Proof.
  induction 1 as [|s l Hs _ IH]; [done|].
  cbn [concat length]. rewrite len_app, IH, Hs. lia.
Qed.

Lemma rows_offset_S (n : Z) (s : bytes) (b : nat) :
  0 <= n -> len s = n ->
  Z.to_nat (Z.of_nat (S b) * n) = (length s + Z.to_nat (Z.of_nat b * n))%nat.
Proof.
  intros Hn Hs. replace (Z.of_nat (S b) * n) with (n + Z.of_nat b * n) by lia.
  rewrite Z2Nat.inj_add by nia. f_equal. unfold len in Hs. lia.
Qed.

Lemma drop_concat_rows (n : Z) (l : list bytes) (b : nat) :
  0 <= n -> Forall (fun s => len s = n) l ->
  drop (Z.to_nat (Z.of_nat b * n)) (concat l) = concat (drop b l).
Proof.
  intros Hn Hl. revert b. induction Hl as [|s l Hs _ IH]; intros b.
  - cbn [concat]. by rewrite !drop_nil.
  - destruct b as [|b]; [reflexivity|]. cbn [concat drop].
    rewrite (rows_offset_S n s b Hn Hs).
    rewrite drop_app_add. apply IH.
Qed.

Lemma take_concat_rows (n : Z) (l : list bytes) (m : nat) :
  0 <= n -> Forall (fun s => len s = n) l ->
  take (Z.to_nat (Z.of_nat m * n)) (concat l) = concat (take m l).
Proof.
  intros Hn Hl. revert m. induction Hl as [|s l Hs _ IH]; intros m.
  - cbn [concat]. by rewrite !take_nil.
  - destruct m as [|m]; [reflexivity|]. cbn [concat take].
    rewrite (rows_offset_S n s m Hn Hs).
    rewrite take_app_add. f_equal. apply IH.
Qed.

Lemma fixed_holds_holds_rows c l : holds c l -> holds_rows c (Z.of_nat (length l)).
Proof.
  intros (Hn & Hl & Hch & Hmax). unfold holds_rows, basic_string.size in *.
  rewrite Hch, (len_concat_rows _ _ Hl). rewrite Hch in Hmax.
  rewrite (len_concat_rows _ _ Hl) in Hmax. lia.
Qed.

(** Reading a held row through [At]. *)
Lemma fixed_holds_observe c l (i : nat) s :
  holds c l -> l !! i = Some s -> observe c (Z.of_nat i) = Ret (Some s).
Proof.
  intros H Hi. pose proof (fixed_holds_holds_rows c l H) as Hr.
  pose proof (lookup_lt_Some _ _ _ Hi) as Hlt.
  rewrite (holds_rows_observe c _ _ Hr) by lia.
  destruct H as (Hn & Hl & Hch & Hmax). rewrite Hch. do 2 f_equal.
  unfold sub. rewrite drop_concat_rows by (done || lia).
  rewrite (drop_S _ _ _ Hi). cbn [concat].
  rewrite Forall_lookup in Hl. specialize (Hl _ _ Hi). cbn in Hl.
  rewrite <- Hl. unfold len. rewrite Nat2Z.id. by rewrite take_app_length.
Qed.

Lemma fixed_holds_observe_past c l i :
  holds c l -> Z.of_nat (length l) <= i ->
  i * string_size_ c <= SIZE_MAX ->
  observe c i = Throw out_of_range.
Proof.
  intros H Hi Hfit. apply fixed_holds_holds_rows in H.
  destruct H as (Hn & Hk & Hsz & Hmax).
  unfold observe, At. rewrite wrap_small by nia.
  destruct (_ <? _) eqn:E; [nia | done].
Qed.

Lemma fixed_holds_make n : 0 < n -> holds (make n) [].
Proof. intros H. unfold holds. simpl. repeat split; try done. Qed.


Lemma len_resize n ch s :
  0 <= n -> len (basic_string.chars (basic_string.resize n ch s)) = n.
Proof.
  intros Hn. unfold basic_string.resize, basic_string.size.
  destruct (_ <=? _) eqn:E; simpl.
  - apply len_take. lia.
  - rewrite len_app, len_replicate; lia.
Qed.

Lemma write_at_0_all (got buf : bytes) :
  len buf = len got -> write_at 0 got buf = got.
Proof.
  intros H. unfold write_at, len in *. simpl.
  rewrite drop_ge by lia. by rewrite app_nil_r.
Qed.

(** Loading what [SaveBody] wrote brings back the buffer. *)
Lemma fixed_save_load c l c0 out rest :
  holds c l -> string_size_ c0 = string_size_ c ->
  exists c',
    SaveBody out c = out ++ concat l /\
    LoadBody (concat l ++ rest) (Z.of_nat (length l)) c0
      = (Ret (true, rest), c') /\
    holds c' l /\ string_size_ c' = string_size_ c.
Proof.
  intros H Hss. pose proof (fixed_holds_holds_rows c l H) as Hr.
  destruct H as (Hn & Hl & Hch & Hmax).
  destruct Hr as (_ & Hk & Hsz & _).
  unfold SaveBody, WireFormat.WriteBytes. rewrite Hch.
  unfold LoadBody. rewrite bind_modify, bind_get. simpl.
  unfold basic_string.size in *. rewrite Hch in Hsz, Hmax.
  rewrite Hss, (Z.mul_comm (string_size_ c)), <- Hsz.
  rewrite wrap_small by (pose proof (len_nonneg (concat l)); lia).
  rewrite len_resize by apply len_nonneg.
  unfold WireFormat.ReadBytes. rewrite len_app.
  pose proof (len_nonneg rest).
  destruct (_ <=? _) eqn:E; [|lia].
  replace (Z.to_nat (len (concat l))) with (length (concat l))
    by (unfold len; lia).
  rewrite take_app_length, drop_app_length.
  rewrite bind_modify. cbn [negb].
  eexists. split; [done|]. split; [reflexivity|].
  unfold holds, basic_string.size.
  cbn [set_data data_ string_size_ basic_string.chars].
  rewrite write_at_0_all by (apply len_resize, len_nonneg).
  by rewrite Hss.
Qed.

Lemma sub_concat_rows (n : Z) (l : list bytes) (b m : nat) :
  0 <= n -> Forall (fun s => len s = n) l ->
  sub (Z.of_nat b * n) (Z.of_nat m * n) (concat l)
  = concat (take m (drop b l)).
Proof.
  intros Hn Hl. unfold sub. rewrite drop_concat_rows by done.
  apply take_concat_rows; [done|]. by apply Forall_drop.
Qed.

(** [Slice] when the byte count [len * string_size_] fits [size_t]. *)
Lemma fixed_slice c l begin n' :
  holds c l -> 0 <= begin -> 0 <= n' ->
  n' * string_size_ c <= SIZE_MAX ->
  exists r,
    Slice begin n' c = Ret r /\
    holds r (take (Z.to_nat n') (drop (Z.to_nat begin) l)).
Proof.
  intros H Hb Hn' Hfit. pose proof (fixed_holds_holds_rows c l H) as Hr.
  unfold Slice. rewrite (holds_rows_Size _ _ Hr).
  destruct H as (Hn & Hl & Hch & Hmax).
  destruct Hr as (_ & Hk & Hsz & _).
  destruct (begin <? _) eqn:E.
  - apply Z.ltb_lt in E.
    assert (Hlt : begin * string_size_ c
                  <= Z.of_nat (length l) * string_size_ c - string_size_ c)
      by nia.
    assert (0 <= begin * string_size_ c) by nia.
    assert (0 <= n' * string_size_ c) by nia.
    unfold basic_string.substr. rewrite Hsz in *.
    rewrite (wrap_small (begin * _)) by lia.
    rewrite (wrap_small (n' * _)) by lia.
    rewrite wrap_small by lia.
    destruct (_ <? _) eqn:E'; [lia|].
    eexists. split; [reflexivity|].
    unfold holds, basic_string.size. simpl. rewrite Hch.
    set (m := Z.min n' (Z.of_nat (length l) - begin)).
    replace (Z.min (Z.min _ _) _) with (Z.of_nat (Z.to_nat m) * string_size_ c)
      by (subst m; nia).
    replace (begin * string_size_ c)
      with (Z.of_nat (Z.to_nat begin) * string_size_ c) by lia.
    rewrite sub_concat_rows by (done || lia).
    assert (Hm : take (Z.to_nat m) (drop (Z.to_nat begin) l)
                 = take (Z.to_nat n') (drop (Z.to_nat begin) l)).
    { subst m. destruct (Z.le_ge_cases n' (Z.of_nat (length l) - begin)).
      - by rewrite Z.min_l.
      - rewrite Z.min_r by done.
        rewrite !take_ge; [done | rewrite length_drop; lia..]. }
    rewrite Hm. split; [done|]. split; [|split; [done|]].
    + by apply Forall_take, Forall_drop.
    + rewrite (len_concat_rows (string_size_ c)) by
        by apply Forall_take, Forall_drop.
      rewrite length_take, length_drop. nia.
  - eexists. split; [reflexivity|].
    rewrite drop_ge by lia. rewrite take_nil. by apply fixed_holds_make.
Qed.
End Fixed.

(** ** The variable-width column: storage *)

Section StringStorage.
Import ColumnString StringSpec.
Context (mem : caller_memory).

Lemma on_back_snoc {A} (m : M Block A) (v : list Block) (b : Block) :
  on_back m (v ++ [b]) = (fst (m b), v ++ [snd (m b)]).
Proof.
  unfold on_back. rewrite last_snoc. destruct (m b) as [o b']. simpl.
  f_equal. rewrite length_app. simpl.
  replace (pred (length v + 1)) with (length v + 0)%nat by lia.
  by rewrite insert_app_r.
Qed.

Lemma block_le_refl b : block_le b b.
Proof. by split. Qed.

Lemma extends_refl c : extends c c.
Proof. split; eauto using block_le_refl. Qed.

Lemma extends_same_storage c c' :
  blocks_ c' = blocks_ c -> append_data_ c' = append_data_ c -> extends c c'.
Proof. intros Hb Ha. split; rewrite ?Hb, ?Ha; eauto using block_le_refl. Qed.

Lemma extends_trans c1 c2 c3 : extends c1 c2 -> extends c2 c3 -> extends c1 c3.
Proof.
  intros [Hb1 Ha1] [Hb2 Ha2]. split; [|by eauto].
  intros i b Hi. destruct (Hb1 _ _ Hi) as (b2 & Hi2 & [Hs1 Hr1]).
  destruct (Hb2 _ _ Hi2) as (b3 & Hi3 & [Hs2 Hr2]).
  exists b3. split; [done|]. split; [lia|].
  intros off n ? ? ?. rewrite Hr2 by lia. by apply Hr1.
Qed.

(** Views that were fine stay fine, and denote the same bytes, when the
    storage is extended. *)
Lemma view_ok_extends c c' v :
  extends c c' -> view_ok mem c v ->
  view_ok mem c' v /\ view_bytes mem c' v = view_bytes mem c v.
Proof.
  intros [Hb Ha] [Hlen Hv]. unfold view_ok, view_bytes.
  destruct v as [[i off|k|a off] n]; simpl in *.
  - destruct Hv as (b & Hi & Hoff & Hend).
    destruct (Hb _ _ Hi) as (b' & Hi' & Hs & Hr).
    rewrite Hi, Hi'. split; [|apply Hr; lia].
    split; [done|]. exists b'. split; [done|]. lia.
  - destruct Hv as (s & Hk & Hle). rewrite Hk, (Ha _ _ Hk).
    split; [|done]. split; [done|]. by exists s.
  - done.
Qed.

Lemma holds_length c l : holds mem c l -> length (items_ c) = length l.
Proof.
  intros H. apply (f_equal length) in H. by rewrite !length_fmap in H.
Qed.

Lemma holds_lookup c l (i : nat) s :
  holds mem c l -> l !! i = Some s ->
  exists v, items_ c !! i = Some v /\ view_bytes mem c v = Some s.
Proof.
  intros H Hi. apply (f_equal (fun x => x !! i)) in H.
  rewrite !list_lookup_fmap, Hi in H. simpl in H.
  destruct (items_ c !! i) as [v|]; [|done]. exists v. split; [done|].
  by injection H.
Qed.

(** Reading through [At] what the column holds. *)
Lemma holds_observe c l (i : nat) s :
  holds mem c l -> l !! i = Some s -> observe mem c (Z.of_nat i) = Ret (Some s).
Proof.
  intros H Hi. destruct (holds_lookup c l i s H Hi) as (v & Hv & Hs).
  pose proof (lookup_lt_Some _ _ _ Hv).
  unfold observe, At. rewrite Nat2Z.id, Hv.
  destruct (_ <? _) eqn:E; [by rewrite Hs | lia].
Qed.

Lemma holds_Size c l : holds mem c l -> Size c = Z.of_nat (length l).
Proof. intros H. unfold Size. by rewrite (holds_length c l H). Qed.

(** Adding one view at the end of [items_] over extended storage. *)
Lemma holds_snoc c c' l vw s :
  Forall (view_ok mem c) (items_ c) -> extends c c' ->
  items_ c' = items_ c ++ [vw] -> view_bytes mem c' vw = Some s ->
  holds mem c l -> holds mem c' (l ++ [s]).
Proof.
  intros Hok Hext Hitems Hvw H. unfold holds in *.
  rewrite Hitems, !fmap_app. simpl. rewrite Hvw, <- H. f_equal.
  apply Forall_fmap_ext_1. eapply List.Forall_impl; [|exact Hok].
  intros v Hv. simpl. by apply view_ok_extends.
Qed.

Lemma wf_snoc c c' vw :
  wf mem c -> extends c c' ->
  Forall block_ok (blocks_ c') ->
  0 <= next_block_size_ c' <= SIZE_MAX ->
  items_ c' = items_ c ++ [vw] -> view_ok mem c' vw ->
  wf mem c'.
Proof.
  intros (_ & Hitems & _) Hext Hblocks Hnext Heq Hvw.
  split; [done|]. split; [|done]. rewrite Heq. apply Forall_app. split.
  - eapply List.Forall_impl; [|exact Hitems]. intros v Hv. simpl.
    by apply view_ok_extends with c.
  - by apply Forall_singleton.
Qed.

Lemma Block_AppendUnsafe_run b str :
  block_ok b -> size b + len str <= capacity b ->
  Block_AppendUnsafe str b = (Ret (size b), block_after b str).
Proof.
  intros (H0 & Hle & Hmax & Hlen) Hroom. unfold Block_AppendUnsafe.
  destruct (_ <=? _) eqn:E; [|lia].
  pose proof (len_nonneg str). by rewrite wrap_small by lia.
Qed.

Lemma block_after_ok b str :
  block_ok b -> size b + len str <= capacity b -> block_ok (block_after b str).
Proof.
  intros (H0 & Hle & Hmax & Hlen) Hroom. pose proof (len_nonneg str).
  unfold block_ok. simpl. rewrite len_write_at by lia. lia.
Qed.

Lemma block_after_le b str :
  block_ok b -> size b + len str <= capacity b -> block_le b (block_after b str).
Proof.
  intros (H0 & Hle & Hmax & Hlen) Hroom. pose proof (len_nonneg str).
  split; [simpl; lia|]. intros off n Hoff Hn Hend. simpl.
  rewrite !read_span_Some by (rewrite ?len_write_at; lia).
  f_equal. apply sub_write_at_before; lia.
Qed.

Lemma block_after_read b str :
  block_ok b -> size b + len str <= capacity b ->
  read_span (size b) (len str) (data_ (block_after b str)) = Some str.
Proof.
  intros (H0 & Hle & Hmax & Hlen) Hroom. pose proof (len_nonneg str). simpl.
  rewrite read_span_Some by (rewrite ?len_write_at; lia).
  f_equal. apply sub_write_at_same; lia.
Qed.

(** Replacing the last block by a later state of itself. *)
Lemma extends_back c c' v b b' :
  blocks_ c = v ++ [b] -> blocks_ c' = v ++ [b'] -> block_le b b' ->
  append_data_ c' = append_data_ c -> extends c c'.
Proof.
  intros Hc Hc' Hle Ha. split; [|by rewrite Ha].
  intros i bi Hi. rewrite Hc in Hi. rewrite Hc'.
  destruct (decide (i < length v)%nat) as [Hlt|Hge].
  - rewrite lookup_app_l in Hi |- * by done. eauto using block_le_refl.
  - rewrite lookup_app_r in Hi |- * by lia.
    destruct (i - length v)%nat; [|done]. simpl in *.
    injection Hi as <-. eauto.
Qed.

(** A fresh block behind the others. *)
Lemma extends_emplace_back c b :
  extends c (set_blocks (emplace_back b) c).
Proof.
  split; [|done]. intros i bi Hi. exists bi. split; [|apply block_le_refl].
  simpl. unfold emplace_back. apply lookup_app_l_Some. done.
Qed.

Lemma AppendUnsafe_run c v b str :
  blocks_ c = v ++ [b] -> block_ok b -> size b + len str <= capacity b ->
  AppendUnsafe str c =
    (Ret tt,
     set_items (emplace_back {| sv_data := in_block (length v) (size b);
                                sv_len := len str |})
       (set_blocks (fun _ => v ++ [block_after b str]) c)).
Proof.
  intros Hc Hb Hroom. unfold AppendUnsafe, in_blocks, back_AppendUnsafe.
  unfold bind at 1. unfold bind at 1. rewrite Hc, on_back_snoc.
  rewrite Block_AppendUnsafe_run by done. simpl.
  rewrite length_app. simpl.
  by replace (pred (length v + 1)) with (length v) by lia.
Qed.

(** [AppendUnsafe] into a block that has the room. *)
Lemma AppendUnsafe_spec c v b str :
  wf mem c -> blocks_ c = v ++ [b] -> size b + len str <= capacity b ->
  exists c',
    AppendUnsafe str c = (Ret tt, c') /\
    wf mem c' /\ extends c c' /\
    (forall l, holds mem c l -> holds mem c' (l ++ [str])) /\
    blocks_ c' = v ++ [block_after b str] /\
    append_data_ c' = append_data_ c /\
    value_size_estimation_ c' = value_size_estimation_ c /\
    next_block_size_ c' = next_block_size_ c.
Proof.
  intros Hwf Hc Hroom. pose proof Hwf as (Hblocks & Hitems & Hnext).
  assert (Hb : block_ok b).
  { rewrite Hc in Hblocks. apply Forall_app in Hblocks as [_ Hb].
    by inversion Hb. }
  rewrite (AppendUnsafe_run c v b str Hc Hb Hroom).
  set (vw := {| sv_data := in_block (length v) (size b); sv_len := len str |}).
  set (c' := set_items _ _).
  assert (Hext : extends c c').
  { apply (extends_back c c' v b (block_after b str)); try done.
    by apply block_after_le. }
  assert (Hread : view_bytes mem c' vw = Some str).
  { unfold view_bytes. simpl.
    rewrite lookup_app_r by lia. rewrite Nat.sub_diag. simpl.
    by apply block_after_read. }
  exists c'. split; [done|]. split; [|split; [done|split; [|done]]].
  - apply (wf_snoc c c' vw); try done.
    + simpl. rewrite Hc in Hblocks. apply Forall_app in Hblocks as [Hv _].
      apply Forall_app. split; [done|]. apply Forall_singleton.
      by apply block_after_ok.
    + destruct Hb as (H0 & Hle & Hmax & Hlen). pose proof (len_nonneg str).
      split; [simpl; lia|]. simpl. exists (block_after b str).
      split; [|simpl; lia].
      rewrite lookup_app_r by lia. by rewrite Nat.sub_diag.
  - intros l Hl. by apply (holds_snoc c c' l vw str).
Qed.

Lemma read_span_len pos n buf s : read_span pos n buf = Some s -> len s = n.
Proof.
  unfold read_span. case_bool_decide as H; [|done]. intros [= <-].
  unfold sub, len in *. rewrite length_take, length_drop. lia.
Qed.

Lemma read_span_inv pos n buf s :
  read_span pos n buf = Some s -> 0 <= pos /\ 0 <= n /\ pos + n <= len buf.
Proof. unfold read_span. by case_bool_decide. Qed.

Lemma view_bytes_len c v s : view_bytes mem c v = Some s -> len s = sv_len v.
Proof.
  unfold view_bytes.
  destruct (sv_data v) as [i off|k|a off];
    [destruct (blocks_ c !! i) | destruct (append_data_ c !! k)
    | destruct (mem !! a)]; try done; apply read_span_len.
Qed.

(** A well-formed column can be read at every index. *)
Lemma view_ok_readable c v :
  Forall block_ok (blocks_ c) -> view_ok mem c v ->
  is_Some (view_bytes mem c v).
Proof.
  intros Hblocks [Hlen Hv]. unfold view_bytes.
  destruct v as [[i off|k|a off] n]; simpl in *.
  - destruct Hv as (b & Hi & Hoff & Hend). rewrite Hi.
    rewrite Forall_lookup in Hblocks.
    destruct (Hblocks _ _ Hi) as (H0 & Hle & Hmax & Hcap).
    rewrite read_span_Some by lia. eauto.
  - destruct Hv as (s & -> & Hle). rewrite read_span_Some by lia. eauto.
  - destruct Hv as (s & -> & Hoff & Hend). rewrite read_span_Some by lia. eauto.
Qed.

Lemma wf_holds c : wf mem c -> exists l, holds mem c l.
Proof.
  intros (Hblocks & Hitems & _). unfold holds.
  induction (items_ c) as [|v vs IH]; [by exists []|].
  inversion Hitems as [|? ? Hv Hvs]; subst.
  destruct (IH Hvs) as [l Hl].
  destruct (view_ok_readable c v Hblocks Hv) as [s Hs].
  exists (s :: l). rewrite !fmap_cons. by rewrite Hs, Hl.
Qed.

Lemma block_make_ok cap : 0 <= cap <= SIZE_MAX -> block_ok (Block_make cap).
Proof.
  intros H. unfold block_ok, Block_make. simpl. rewrite len_replicate; lia.
Qed.

Lemma EstimateNextBlockSize_range e :
  0 <= EstimateNextBlockSize e <= SIZE_MAX.
Proof. unfold EstimateNextBlockSize. size_arith. Qed.

(** Storage extension does not look at [items_] or the two sizes. *)
Lemma wf_extends c c' :
  wf mem c -> extends c c' -> Forall block_ok (blocks_ c') ->
  0 <= next_block_size_ c' <= SIZE_MAX -> items_ c' = items_ c -> wf mem c'.
Proof.
  intros (_ & Hitems & _) Hext Hblocks Hnext Heq.
  split; [done|]. split; [|done]. rewrite Heq.
  eapply List.Forall_impl; [|exact Hitems]. intros v Hv. simpl.
  by apply view_ok_extends with c.
Qed.

Lemma holds_extends c c' l :
  wf mem c -> extends c c' -> items_ c' = items_ c ->
  holds mem c l -> holds mem c' l.
Proof.
  intros (_ & Hitems & _) Hext Heq H. unfold holds in *. rewrite Heq, <- H.
  apply Forall_fmap_ext_1. eapply List.Forall_impl; [|exact Hitems].
  intros v Hv. simpl. by apply view_ok_extends.
Qed.

Lemma Append_unfold str c : Append str c = AppendUnsafe str (with_room str c).
Proof.
  unfold Append, with_room. rewrite bind_get.
  destruct (match list.last (blocks_ c) with None => _ | Some _ => _ end);
    reflexivity.
Qed.

Lemma GetAvailable_ok b : block_ok b -> GetAvailable b = capacity b - size b.
Proof. intros (H0 & Hle & Hmax & _). unfold GetAvailable. apply wrap_small. lia. Qed.

(** The copy append. *)
Lemma Append_spec c str :
  wf mem c -> len str <= SIZE_MAX ->
  exists c',
    Append str c = (Ret tt, c') /\
    wf mem c' /\ extends c c' /\
    (forall l, holds mem c l -> holds mem c' (l ++ [str])) /\
    append_data_ c' = append_data_ c /\
    value_size_estimation_ c' = value_size_estimation_ c.
Proof.
  intros Hwf Hlen. pose proof Hwf as (Hblocks & Hitems & Hnext).
  pose proof (len_nonneg str) as Hstr.
  rewrite Append_unfold. unfold with_room.
  destruct (match list.last (blocks_ c) with None => _ | Some _ => _ end) eqn:E.
  - set (b := Block_make (Z.max (next_block_size_ c) (len str))).
    set (c1 := set_next_block_size _ _).
    assert (Hb : block_ok b) by (apply block_make_ok; lia).
    assert (Hext : extends c c1) by apply (extends_emplace_back c b).
    assert (Hwf1 : wf mem c1).
    { apply (wf_extends c c1); try done.
      - simpl. apply Forall_app. split; [done|]. by apply Forall_singleton.
      - apply EstimateNextBlockSize_range. }
    destruct (AppendUnsafe_spec c1 (blocks_ c) b str Hwf1 eq_refl)
      as (c' & Hrun & Hwf' & Hext' & Hholds & _ & Ha & He & _);
      [simpl; lia|].
    exists c'. split; [done|]. split; [done|].
    split; [by apply extends_trans with c1|].
    split; [|done]. intros l Hl. apply Hholds.
    by apply (holds_extends c c1).
  - destruct (list.last (blocks_ c)) as [b|] eqn:Hlast; [|done].
    apply last_Some in Hlast as [v Hv].
    assert (Hb : block_ok b).
    { rewrite Hv in Hblocks. apply Forall_app in Hblocks as [_ Hb].
      by inversion Hb. }
    rewrite GetAvailable_ok in E by done.
    destruct (AppendUnsafe_spec c v b str Hwf Hv)
      as (c' & Hrun & Hwf' & Hext' & Hholds & _ & Ha & He & _); [lia|].
    by exists c'.
Qed.

Lemma emplace_back_last {A} (x : A) (v : list A) :
  emplace_back x v !! pred (length (emplace_back x v)) = Some x.
Proof.
  unfold emplace_back. rewrite length_app. simpl.
  replace (pred (length v + 1)) with (length v + 0)%nat by lia.
  by rewrite lookup_app_r, Nat.add_sub' by lia.
Qed.

(** The ownership-transfer append. *)
Lemma Append_move_spec c str :
  wf mem c -> len str <= SIZE_MAX ->
  exists c',
    Append_move str c = (Ret tt, c') /\
    wf mem c' /\ extends c c' /\
    (forall l, holds mem c l -> holds mem c' (l ++ [str])) /\
    blocks_ c' = blocks_ c /\
    append_data_ c' = append_data_ c ++ [str] /\
    value_size_estimation_ c' = value_size_estimation_ c /\
    next_block_size_ c' = next_block_size_ c.
Proof.
  intros Hwf Hlen. pose proof Hwf as (Hblocks & Hitems & Hnext).
  pose proof (len_nonneg str) as Hstr.
  unfold Append_move, emplace_owned. rewrite bind_modify, bind_get.
  unfold modify. cbn [append_data_ set_append_data emplace_back].
  set (vw := {| sv_data := _; sv_len := _ |}). set (c' := set_items _ _).
  assert (Hext : extends c c').
  { split; [by eauto using block_le_refl|]. intros k s Hk. simpl.
    by apply lookup_app_l_Some. }
  assert (Hread : view_bytes mem c' vw = Some str).
  { unfold view_bytes. simpl. rewrite emplace_back_last.
    rewrite read_span_Some by lia. f_equal.
    unfold sub, len. rewrite Nat2Z.id. simpl. apply firstn_all. }
  exists c'. split; [done|]. split; [|split; [done|split; [|done]]].
  - apply (wf_snoc c c' vw); try done.
    split; [simpl; lia|]. simpl. exists str. split; [|lia].
    apply emplace_back_last.
  - intros l Hl. by apply (holds_snoc c c' l vw str).
Qed.

(** The unsafe-borrow append of a view that lies in live memory of the
    caller. *)
Lemma AppendNoManagedLifetime_spec c a off n s :
  wf mem c -> appended mem (by_borrow a off n) = Some s -> n <= SIZE_MAX ->
  exists c',
    AppendNoManagedLifetime a off n c = (Ret tt, c') /\
    wf mem c' /\ extends c c' /\
    (forall l, holds mem c l -> holds mem c' (l ++ [s])) /\
    blocks_ c' = blocks_ c /\
    append_data_ c' = append_data_ c /\
    value_size_estimation_ c' = value_size_estimation_ c /\
    next_block_size_ c' = next_block_size_ c.
Proof.
  intros Hwf Hs Hn. pose proof Hwf as (Hblocks & Hitems & Hnext).
  unfold AppendNoManagedLifetime, modify.
  set (vw := {| sv_data := _; sv_len := _ |}). set (c' := set_items _ _).
  simpl in Hs. destruct (mem !! a) as [buf|] eqn:Ha; [|done].
  destruct (read_span_inv _ _ _ _ Hs) as (Hoff & Hn0 & Hend).
  assert (Hread : view_bytes mem c' vw = Some s).
  { unfold view_bytes. simpl. by rewrite Ha. }
  assert (Hext : extends c c') by by apply extends_same_storage.
  exists c'. split; [done|]. split; [|split; [done|split; [|done]]].
  - apply (wf_snoc c c' vw); try done.
    split; [simpl; lia|]. simpl. by exists buf.
  - intros l Hl. by apply (holds_snoc c c' l vw s).
Qed.

(** Any of the three appends. *)
Lemma run_append_spec c op s :
  wf mem c -> appended mem op = Some s -> len s <= SIZE_MAX ->
  exists c',
    run_append op c = (Ret tt, c') /\ wf mem c' /\ extends c c' /\
    forall l, holds mem c l -> holds mem c' (l ++ [s]).
Proof.
  intros Hwf Hs Hlen. destruct op as [str|str|a off n]; simpl in *.
  - injection Hs as ->.
    destruct (Append_spec c s Hwf Hlen) as (c' & ? & ? & ? & ? & _). eauto.
  - injection Hs as ->.
    destruct (Append_move_spec c s Hwf Hlen) as (c' & ? & ? & ? & ? & _). eauto.
  - assert (n <= SIZE_MAX).
    { destruct (mem !! a); [|done]. by rewrite <- (read_span_len _ _ _ _ Hs). }
    destruct (AppendNoManagedLifetime_spec c a off n s Hwf Hs)
      as (c' & ? & ? & ? & ? & _); eauto.
Qed.

(** A run of appends, each by any of the three modes. *)
Lemma for_each_run_append c l ops strs :
  wf mem c -> holds mem c l ->
  Forall2 (fun op s => appended mem op = Some s /\ len s <= SIZE_MAX) ops strs ->
  exists c',
    for_each ops run_append c = (Ret tt, c') /\ wf mem c' /\
    holds mem c' (l ++ strs).
Proof.
  intros Hwf Hl Hops. revert c l Hwf Hl.
  induction Hops as [|op s ops strs [Hs Hlen] _ IH]; intros c l Hwf Hl.
  - exists c. by rewrite app_nil_r.
  - destruct (run_append_spec c op s Hwf Hs Hlen) as (c1 & Hrun & Hwf1 & _ & H1).
    destruct (IH c1 (l ++ [s]) Hwf1 (H1 _ Hl)) as (c' & Hrun' & Hwf' & H').
    exists c'. split; [|split; [done|]].
    + cbn [for_each]. unfold bind. by rewrite Hrun.
    + by rewrite <- app_assoc in H'.
Qed.

End StringStorage.

(** ** The wire codec *)

Section Wire.
Import WireFormat.

Lemma Z_of_byte_of_Z z : Z_of_byte (byte_of_Z z) = z mod 256.
Proof.
  unfold Z_of_byte, byte_of_Z.
  destruct (Byte.of_N (Z.to_N (z mod 256))) as [b|] eqn:E.
  - simpl. rewrite (Byte.to_of_N _ E). lia.

  - apply Byte.of_N_None_iff in E. lia.
Qed.

Lemma length_le_encode k z : length (le_encode k z) = k.
Proof. revert z. induction k as [|k IH]; intros z; simpl; [done|]. by rewrite IH. Qed.

Lemma le_decode_encode k z : le_decode (le_encode k z) = z mod 256 ^ Z.of_nat k.
Proof.
  revert z. induction k as [|k IH]; intros z.
  - simpl. by rewrite Z.mod_1_r.
  - cbn [le_encode le_decode]. rewrite Z_of_byte_of_Z, IH.
    rewrite Nat2Z.inj_succ, Z.pow_succ_r by lia.
    rewrite Z.rem_mul_r by lia. reflexivity.
Qed.

Lemma le_decode_encode_u64 z :
  0 <= z <= SIZE_MAX -> le_decode (le_encode 8 z) = z.
Proof.
  intros H. rewrite le_decode_encode. apply Z.mod_small.
  change (256 ^ Z.of_nat 8) with 18446744073709551616. unfold SIZE_MAX in H.
  change (2 ^ 64) with 18446744073709551616 in H. lia.
Qed.

(** Reading back a length prefix. *)
Lemma ReadUInt64_WriteUInt64 z rest :
  0 <= z <= SIZE_MAX ->
  ReadUInt64 (le_encode 8 z ++ rest) = (Some z, rest).
Proof.
  intros H. unfold ReadUInt64.
  assert (Hlen : length (le_encode 8 z) = 8%nat) by apply length_le_encode.
  rewrite len_app. unfold len at 1. rewrite Hlen.
  pose proof (len_nonneg rest).
  change (Z.of_nat 8) with 8.
  destruct (_ <=? _) eqn:E; [|clear H; lia].
  rewrite <- Hlen at 1 3. rewrite take_app_length, drop_app_length.
  by rewrite le_decode_encode_u64.
Qed.

Lemma ReadBytes_app (s rest : bytes) :
  ReadBytes (s ++ rest) (len s) = (true, s, rest).
Proof.
  unfold ReadBytes. rewrite len_app. pose proof (len_nonneg rest).
  destruct (_ <=? _) eqn:E; [|lia].
  unfold len. rewrite Nat2Z.id. by rewrite take_app_length, drop_app_length.
Qed.
End Wire.

Section StringWire.
Import ColumnString StringSpec WireFormat.
Context (mem : caller_memory).

Lemma save_items_spec c items l out :
  view_bytes mem c <$> items = Some <$> l ->
  save_items mem c items out = Ret (out ++ wire_rows l).
Proof.
  revert l out. induction items as [|v items IH]; intros l out H.
  - destruct l; [|done]. simpl. by rewrite app_nil_r.
  - destruct l as [|s l]; [done|]. rewrite !fmap_cons in H.
    injection H as Hv Hrest. cbn [save_items]. rewrite Hv.
    rewrite (IH l _ Hrest). unfold WriteString, WriteUInt64, WriteBytes.
    cbn [wire_rows]. by rewrite <- !app_assoc.
Qed.

Lemma SaveBody_spec c l out :
  holds mem c l -> SaveBody mem out c = Ret (out ++ wire_rows l).
Proof. apply save_items_spec. Qed.

Lemma extends_snoc_block c c' b :
  blocks_ c' = blocks_ c ++ [b] -> append_data_ c' = append_data_ c ->
  extends c c'.
Proof.
  intros Hb Ha. split; [|by rewrite Ha]. intros i bi Hi.
  exists bi. split; [|apply block_le_refl]. rewrite Hb.
  by apply lookup_app_l_Some.
Qed.

Lemma in_new_blocks_on_back {A} (m : M Block A) items v b :
  in_new_blocks (on_back m) {| new_items := items; new_blocks := v ++ [b] |}
  = (fst (m b), {| new_items := items; new_blocks := v ++ [snd (m b)] |}).
Proof. unfold in_new_blocks. simpl. by rewrite on_back_snoc. Qed.

(** Receiving a row into the tail of a block that has the room. *)
Lemma load_rows_receive n s rest items v b :
  block_ok b -> size b + len s <= capacity b ->
  (in_new_blocks (on_back (receive_into_tail s)) ;;;
   if negb true then ret (false, rest)
   else
     let* pos := in_new_blocks (on_back (ConsumeTailAsStringViewUnsafe (len s))) in
     let* st := get in
     push_new_item {| sv_data := in_block (pred (length (new_blocks st))) pos;
                      sv_len := len s |} ;;;
     load_rows n rest)%cxx {| new_items := items; new_blocks := v ++ [b] |}
  = load_rows n rest
      {| new_items := emplace_back {| sv_data := in_block (length v) (size b);
                                      sv_len := len s |} items;
         new_blocks := v ++ [block_after b s] |}.
Proof.
  intros (H0 & Hle & Hmax & Hcap) Hroom. pose proof (len_nonneg s).
  unfold bind at 1. rewrite in_new_blocks_on_back. cbn [fst snd receive_into_tail negb].
  unfold bind at 1. rewrite in_new_blocks_on_back.
  cbn [fst snd ConsumeTailAsStringViewUnsafe size capacity data_ GetCurrentWritePos].
  rewrite bind_get. unfold bind at 1, push_new_item, modify.
  cbn [new_items new_blocks]. rewrite length_app. simpl length.
  replace (pred (length v + 1)) with (length v) by lia.
  rewrite wrap_small by lia. reflexivity.
Qed.

Lemma loaded_AppendUnsafe c items v b s :
  block_ok b -> size b + len s <= capacity b ->
  AppendUnsafe s (loaded c {| new_items := items; new_blocks := v ++ [b] |})
  = (Ret tt,
     loaded c {| new_items := emplace_back {| sv_data := in_block (length v) (size b);
                                             sv_len := len s |} items;
                 new_blocks := v ++ [block_after b s] |}).
Proof.
  intros Hb Hroom.
  by rewrite (AppendUnsafe_run
                (loaded c {| new_items := items; new_blocks := v ++ [b] |})
                v b s eq_refl Hb Hroom).
Qed.

Lemma load_rows_step c n s rest st :
  new_blocks st <> [] -> wf mem (loaded c st) -> len s <= SIZE_MAX ->
  exists st',
    load_rows (S n) (le_encode 8 (len s) ++ s ++ rest) st
      = load_rows n rest st' /\
    new_blocks st' <> [] /\ wf mem (loaded c st') /\
    forall l, holds mem (loaded c st) l -> holds mem (loaded c st') (l ++ [s]).
Proof.
  intros Hne Hwf Hlen. pose proof (len_nonneg s) as Hs.
  cbn [load_rows]. rewrite ReadUInt64_WriteUInt64 by lia.
  rewrite ReadBytes_app.
  destruct st as [items blocks]. cbn [new_blocks] in Hne.
  destruct (list.last blocks) as [b|] eqn:Hlast;
    [|by apply last_None in Hlast].
  apply last_Some in Hlast as [v ->].
  pose proof Hwf as (Hblocks & Hitems & Hnext). cbn in Hblocks.
  assert (Hb : block_ok b).
  { apply Forall_app in Hblocks as [_ Hb]. by inversion Hb. }
  unfold bind at 1. rewrite in_new_blocks_on_back. cbn [fst snd].
  rewrite GetAvailable_ok by done.
  destruct (capacity b - size b <? len s) eqn:E.
  - unfold bind at 1. unfold in_new_blocks at 1, modify. cbn [new_blocks new_items].
    set (b1 := Block_make (Z.max DEFAULT_BLOCK_SIZE (len s))).
    assert (Hb1 : block_ok b1) by (apply block_make_ok; size_arith).
    unfold emplace_back at 1.
    rewrite (load_rows_receive n s rest items (v ++ [b]) b1 Hb1)
      by (simpl; lia).
    set (st1 := {| new_items := items; new_blocks := (v ++ [b]) ++ [b1] |}).
    assert (Hext : extends (loaded c {| new_items := items; new_blocks := v ++ [b] |})
                           (loaded c st1)).
    { by apply (extends_snoc_block _ _ b1). }
    assert (Hwf1 : wf mem (loaded c st1)).
    { apply (wf_extends mem _ _ Hwf Hext); try done.
      cbn. apply Forall_app. split; [done|]. by apply Forall_singleton. }
    destruct (AppendUnsafe_spec mem (loaded c st1) (v ++ [b]) b1 s Hwf1 eq_refl)
      as (c' & Hrun & Hwf' & _ & Hholds & _); [simpl; lia|].
    unfold st1 in Hrun. rewrite loaded_AppendUnsafe in Hrun by (done || simpl; lia).
    injection Hrun as <-.
    eexists. split; [reflexivity|]. split; [|split; [done|]].
    + cbn. by destruct (v ++ [b]).
    + intros l Hl. apply Hholds. by apply (holds_extends mem _ _ l Hwf Hext).
  - rewrite bind_ret.
    rewrite (load_rows_receive n s rest items v b Hb) by lia.
    destruct (AppendUnsafe_spec mem _ v b s Hwf eq_refl)
      as (c' & Hrun & Hwf' & _ & Hholds & _); [lia|].
    rewrite loaded_AppendUnsafe in Hrun by (done || lia).
    injection Hrun as <-.
    eexists. split; [reflexivity|]. split; [|split; [done|done]].
    cbn. by destruct v.
Qed.

(** The loop of [LoadBody] over the rows that [SaveBody] wrote. *)
Lemma load_rows_spec c l l0 rest st :
  new_blocks st <> [] -> wf mem (loaded c st) ->
  Forall (fun s => len s <= SIZE_MAX) l ->
  holds mem (loaded c st) l0 ->
  exists st',
    load_rows (length l) (wire_rows l ++ rest) st = (Ret (true, rest), st') /\
    wf mem (loaded c st') /\ holds mem (loaded c st') (l0 ++ l).
Proof.
  intros Hne Hwf Hl. revert st l0 Hne Hwf.
  induction Hl as [|s l Hs _ IH]; intros st l0 Hne Hwf H0.
  - exists st. by rewrite app_nil_r.
  - cbn [wire_rows length]. rewrite <- !app_assoc.
    destruct (load_rows_step c (length l) s (wire_rows l ++ rest) st Hne Hwf Hs)
      as (st1 & -> & Hne1 & Hwf1 & H1).
    destruct (IH st1 (l0 ++ [s]) Hne1 Hwf1 (H1 _ H0)) as (st' & Hrun & Hwf' & H').
    exists st'. split; [done|]. split; [done|]. by rewrite <- app_assoc in H'.
Qed.

Lemma holds_ext c c' l :
  items_ c' = items_ c -> blocks_ c' = blocks_ c ->
  append_data_ c' = append_data_ c -> holds mem c l -> holds mem c' l.
Proof.
  intros Hi Hb Ha H. unfold holds in *. rewrite Hi, <- H.
  apply list_fmap_ext. intros _ v _. unfold view_bytes. by rewrite Hb, Ha.
Qed.

(** Loading the rows that [SaveBody] wrote. *)
Lemma LoadBody_wire_rows l c0 rest :
  Forall (fun s => len s <= SIZE_MAX) l ->
  exists c',
    LoadBody (wire_rows l ++ rest) (Z.of_nat (length l)) c0
      = (Ret (true, rest), c') /\
    holds mem c' l /\
    append_data_ c' = append_data_ c0 /\
    value_size_estimation_ c' = value_size_estimation_ c0 /\
    next_block_size_ c' = next_block_size_ c0.
Proof.
  intros Hl. unfold LoadBody. destruct l as [|s l].
  - simpl. eexists. split; [reflexivity|]. done.
  - destruct (_ =? _) eqn:E; [simpl in E; lia|]. clear E.
    rewrite Nat2Z.id. unfold bind at 1.
    unfold in_new_blocks at 1, modify at 1. cbn [new_blocks new_items].
    set (st0 := {| new_items := []; new_blocks := emplace_back _ [] |}).
    set (c1 := set_next_block_size 0 c0).
    assert (Hwf0 : wf mem (loaded c1 st0)).
    { split; [|split]; cbn.
      - apply Forall_singleton, block_make_ok. size_arith.
      - constructor.
      - size_arith. }
    destruct (load_rows_spec c1 (s :: l) [] rest st0) as (st' & -> & _ & H');
      try done.
    eexists. split; [reflexivity|]. split; [|done].
    by apply (holds_ext (loaded c1 st')).
Qed.

(** The loop of [LoadBody] always comes back with a flag. *)
Lemma load_rows_total n input st :
  new_blocks st <> [] ->
  exists ok rest st', load_rows n input st = (Ret (ok, rest), st').
Proof.
  revert input st. induction n as [|n IH]; intros input st Hne.
  - by exists true, input, st.
  - cbn [load_rows]. destruct (ReadUInt64 input) as [[n0|] input1].
    2: by exists false, input1, st.
    destruct (ReadBytes input1 n0) as [[ok got] input2].
    destruct st as [items blocks]. cbn [new_blocks] in Hne.
    destruct (list.last blocks) as [b|] eqn:Hlast;
      [|by apply last_None in Hlast].
    apply last_Some in Hlast as [v ->].
    unfold bind at 1. rewrite in_new_blocks_on_back. cbn [fst snd].
    set (st1 := if GetAvailable b <? n0
                then {| new_items := items;
                        new_blocks := emplace_back
                          (Block_make (Z.max DEFAULT_BLOCK_SIZE n0)) (v ++ [b]) |}
                else {| new_items := items; new_blocks := v ++ [b] |}).
    assert (Hst1 : exists v1 b1, st1 = {| new_items := items; new_blocks := v1 ++ [b1] |}).
    { subst st1. destruct (_ <? _); eauto. }
    destruct Hst1 as (v1 & b1 & Hst1).
    assert (Hgo : forall k : unit -> M loading (bool * bytes), bind (if GetAvailable b <? n0
              then in_new_blocks (modify (emplace_back
                     (Block_make (Z.max DEFAULT_BLOCK_SIZE n0))))
              else ret tt) k {| new_items := items; new_blocks := v ++ [b] |}
            = k tt st1).
    { intros k. subst st1. by destruct (_ <? _). }
    rewrite Hgo, Hst1. clear Hgo.
    unfold bind at 1. rewrite in_new_blocks_on_back.
    cbn [fst snd receive_into_tail].
    destruct ok; cbn [negb].
    + unfold bind at 1. rewrite in_new_blocks_on_back.
      cbn [fst snd ConsumeTailAsStringViewUnsafe].
      rewrite bind_get. unfold bind at 1, push_new_item, modify.
      apply IH. cbn. by destruct v1.
    + eexists _, _, _. reflexivity.
Qed.

(** In the model, where what [LoadBody] reserves is granted, the call
    yields a flag; a failed load leaves the column as it was. *)
Lemma LoadBody_total input rows c :
  exists ok rest c',
    LoadBody input rows c = (Ret (ok, rest), c') /\ (ok = false -> c' = c).
Proof.
  unfold LoadBody. destruct (rows =? 0).
  - eexists _, _, _. split; [reflexivity|done].
  - unfold bind at 1. unfold in_new_blocks at 1, modify at 1.
    cbn [new_blocks new_items].
    destruct (load_rows_total (Z.to_nat rows) input
                {| new_items := [];
                   new_blocks := emplace_back (Block_make DEFAULT_BLOCK_SIZE) [] |})
      as (ok & rest & st' & ->); [done|].
    destruct ok; eexists _, _, _; (split; [reflexivity|done]).
Qed.
End StringWire.

(** ** The size estimate in double precision *)

Section Estimate.
Import binary64.

(** On the samples the model computes what [SpecFloat] specifies. *)
Lemma binary64_agrees_on_samples :
  forallb (fun ab => agrees_with_SpecFloat ab.1 ab.2) samples = true.
Proof. vm_compute. reflexivity. Qed.

Lemma rne_le p q N : 0 < q -> p <= N * q -> rne p q <= N.
Proof.
  intros Hq H. unfold rne.
  pose proof (Z.div_mod p q ltac:(lia)) as Hdm.
  pose proof (Z.mod_pos_bound p q Hq) as Hr.
  assert (Hf : p / q <= N) by (apply Z.div_le_upper_bound; lia).
  destruct (2 * (p mod q) <? q) eqn:E1; [done|].
  assert (p / q < N) by nia.
  destruct (q <? 2 * (p mod q)); [lia|]. destruct (Z.even _); lia.
Qed.

Lemma rne_gt p q N : 0 < q -> (2 * N + 1) * q < 2 * p -> N + 1 <= rne p q.
Proof.
  intros Hq H. unfold rne.
  pose proof (Z.div_mod p q ltac:(lia)) as Hdm.
  pose proof (Z.mod_pos_bound p q Hq) as Hr.
  assert (Hf : N <= p / q) by (apply Z.div_le_lower_bound; nia).
  destruct (2 * (p mod q) <? q) eqn:E1.
  - assert (N < p / q) by nia. lia.
  - destruct (q <? 2 * (p mod q)) eqn:E2; [lia|].
    assert (N < p / q) by nia. destruct (Z.even _); lia.
Qed.

Lemma rne_exact p : rne p 1 = p.
Proof.
  unfold rne. rewrite Z.div_1_r, Z.mod_1_r. reflexivity.
Qed.

Lemma rne_ge_floor p q : 0 < q -> p / q <= rne p q.
Proof.
  intros Hq. unfold rne.
  destruct (_ <? _); [lia|]. destruct (_ <? _); [lia|]. destruct (Z.even _); lia.
Qed.

Lemma ilog2_lower a b :
  0 < a -> 0 < b ->
  b * 2 ^ Z.max 0 (ilog2 a b) <= a * 2 ^ Z.max 0 (- ilog2 a b).
Proof.
  intros Ha Hb. unfold ilog2.
  destruct (Z.log2_spec a Ha) as [Ha1 Ha2].
  destruct (Z.log2_spec b Hb) as [Hb1 Hb2].
  pose proof (Z.log2_nonneg a). pose proof (Z.log2_nonneg b).
  set (la := Z.log2 a) in *. set (lb := Z.log2 b) in *.
  unfold Z.succ in *.
  destruct (_ <=? _) eqn:E; [lia|]. clear E.
  destruct (Z.le_gt_cases 1 (la - lb)) as [Hd|Hd].
  - rewrite (Z.max_r 0 (la - lb - 1)), (Z.max_l 0 (- (la - lb - 1))) by lia.
    rewrite Z.pow_0_r, Z.mul_1_r.
    replace la with (lb + 1 + (la - lb - 1)) in Ha1 by lia.
    rewrite Z.pow_add_r in Ha1 by lia.
    assert (0 < 2 ^ (la - lb - 1)) by (apply Z.pow_pos_nonneg; lia).
    nia.
  - rewrite (Z.max_l 0 (la - lb - 1)), (Z.max_r 0 (- (la - lb - 1))) by lia.
    rewrite Z.pow_0_r, Z.mul_1_r.
    replace (lb + 1) with (la + - (la - lb - 1)) in Hb2 by lia.
    rewrite Z.pow_add_r in Hb2 by lia.
    assert (0 < 2 ^ (- (la - lb - 1))) by (apply Z.pow_pos_nonneg; lia).
    assert (0 < 2 ^ la) by (apply Z.pow_pos_nonneg; lia).
    nia.
Qed.

Lemma ilog2_1 t : 0 < t -> ilog2 t 1 = Z.log2 t.
Proof.
  intros Ht. unfold ilog2. change (Z.log2 1) with 0. rewrite Z.sub_0_r.
  destruct (Z.log2_spec t Ht) as [H1 _]. pose proof (Z.log2_nonneg t).
  rewrite (Z.max_r 0 (Z.log2 t)), (Z.max_l 0 (- Z.log2 t)) by lia.
  destruct (_ <=? _) eqn:E; [done|lia].
Qed.

Lemma ceil_div_bounds t n :
  0 < n -> (ceil_div t n - 1) * n < t <= ceil_div t n * n.
Proof.
  intros Hn. unfold ceil_div.
  pose proof (Z.div_mod (- t) n ltac:(lia)).
  pose proof (Z.mod_pos_bound (- t) n Hn). nia.
Qed.

Lemma ceil_div_unique t n k : 0 < n -> (k - 1) * n < t <= k * n -> ceil_div t n = k.
Proof.
  intros Hn H. pose proof (ceil_div_bounds t n Hn). nia.
Qed.

(** Rounding the quotient of [t < 2^53] by [n] and taking the ceiling gives
    the ceiling of the exact quotient; [g] is the common scale that the two
    operands of the division carry. *)
Lemma ceil_round_ratio t n g :
  0 < t < 2 ^ 53 -> 0 < n -> 0 < g ->
  ceil (round_ratio (t * g) (n * g)) = ceil_div t n.
Proof.
  intros Ht Hn Hg. unfold round_ratio.
  destruct (t * g <=? 0) eqn:E0; [nia|]. clear E0.
  pose proof (ilog2_lower (t * g) (n * g) ltac:(nia) ltac:(nia)) as Hlow.
  set (E := ilog2 (t * g) (n * g)) in *.
  assert (Hlow' : n * 2 ^ Z.max 0 E <= t * 2 ^ Z.max 0 (- E)).
  { assert (0 < 2 ^ Z.max 0 E) by (apply Z.pow_pos_nonneg; lia).
    assert (0 < 2 ^ Z.max 0 (- E)) by (apply Z.pow_pos_nonneg; lia).
    nia. }
  clear Hlow.
  assert (HE : E <= 52).
  { destruct (Z.le_gt_cases E 52) as [|Hgt]; [done|]. exfalso.
    rewrite (Z.max_r 0 E), (Z.max_l 0 (- E)), Z.pow_0_r in Hlow' by lia.
    assert (2 ^ 53 <= 2 ^ E) by (apply Z.pow_le_mono_r; lia). nia. }
  set (s := 52 - E).
  assert (HS : 0 < 2 ^ s) by (apply Z.pow_pos_nonneg; lia).
  assert (Hn2 : n < 2 * 2 ^ s).
  { destruct (Z.le_gt_cases 0 E) as [Hpos|Hneg].
    - rewrite (Z.max_r 0 E), (Z.max_l 0 (- E)), Z.pow_0_r in Hlow' by lia.
      assert (H53 : 2 ^ 53 = 2 ^ E * (2 * 2 ^ s)).
      { replace 53 with (E + (1 + s)) by lia.
        rewrite !Z.pow_add_r by lia. reflexivity. }
      assert (0 < 2 ^ E) by (apply Z.pow_pos_nonneg; lia). nia.
    - rewrite (Z.max_l 0 E), (Z.max_r 0 (- E)), Z.pow_0_r in Hlow' by lia.
      assert (H53 : 2 * 2 ^ s = 2 ^ 53 * 2 ^ (- E)).
      { replace s with (52 + - E) by lia. rewrite Z.pow_add_r by lia.
        change (2 ^ 53) with (2 * 2 ^ 52). lia. }
      assert (0 < 2 ^ (- E)) by (apply Z.pow_pos_nonneg; lia). nia. }
  rewrite (Z.max_r 0 (- (E - 52))), (Z.max_l 0 (E - 52)) by lia.
  replace (- (E - 52)) with s by lia. rewrite Z.pow_0_r, Z.mul_1_r.
  pose proof (ceil_div_bounds t n Hn) as Hk. set (k := ceil_div t n) in *.
  set (m := rne (t * g * 2 ^ s) (n * g)).
  assert (Hup : m <= k * 2 ^ s) by (apply rne_le; nia).
  assert (Hlo : (k - 1) * 2 ^ s + 1 <= m).
  { apply rne_gt; [nia|].
    assert (1 <= t - (k - 1) * n) by lia.
    assert ((2 * ((k - 1) * 2 ^ s) + 1) * n < 2 * t * 2 ^ s) by nia.
    nia. }
  unfold ceil. cbn [mant expo].
  destruct (0 <=? E - 52) eqn:E1.
  - assert (E - 52 = 0) as -> by lia. replace s with 0 in * by lia.
    rewrite Z.pow_0_r in *. lia.
  - replace (- (E - 52)) with s by lia.
    pose proof (Z.div_mod (- m) (2 ^ s) ltac:(lia)).
    pose proof (Z.mod_pos_bound (- m) (2 ^ s) HS). nia.
Qed.

(** An integer below [2^53] converts to [double] without rounding. *)
Lemma of_size_t_small t :
  0 < t < 2 ^ 53 ->
  of_size_t t = {| mant := t * 2 ^ (52 - Z.log2 t); expo := Z.log2 t - 52 |}.
Proof.
  intros Ht. unfold of_size_t, round_ratio.
  destruct (t <=? 0) eqn:E0; [lia|]. clear E0.
  rewrite ilog2_1 by lia.
  assert (Z.log2 t < 53) by (apply Z.log2_lt_pow2; lia).
  rewrite (Z.max_r 0 (- (Z.log2 t - 52))), (Z.max_l 0 (Z.log2 t - 52)) by lia.
  rewrite Z.pow_0_r, rne_exact. f_equal. f_equal. f_equal. lia.
Qed.

(** A larger one is rounded to a multiple of a power of two, and stays at
    least [2^53]. *)
Lemma of_size_t_large n :
  2 ^ 53 <= n ->
  exists m, of_size_t n = {| mant := m; expo := Z.log2 n - 52 |} /\
            53 <= Z.log2 n /\ 2 ^ 53 <= m * 2 ^ (Z.log2 n - 52).
Proof.
  intros Hn. unfold of_size_t, round_ratio.
  destruct (n <=? 0) eqn:E0; [lia|]. clear E0.
  rewrite ilog2_1 by lia.
  assert (HL : 53 <= Z.log2 n) by (apply Z.log2_le_pow2; lia).
  rewrite (Z.max_l 0 (- (Z.log2 n - 52))), (Z.max_r 0 (Z.log2 n - 52)) by lia.
  rewrite Z.pow_0_r, Z.mul_1_r, Z.mul_1_l.
  eexists. split; [reflexivity|]. split; [done|].
  destruct (Z.log2_spec n ltac:(lia)) as [Hlo _].
  set (L := Z.log2 n) in *.
  assert (He : 0 < 2 ^ (L - 52)) by (apply Z.pow_pos_nonneg; lia).
  assert (HLe : 2 ^ L = 2 ^ 52 * 2 ^ (L - 52)).
  { rewrite <- Z.pow_add_r by lia. f_equal. lia. }
  pose proof (rne_ge_floor n (2 ^ (L - 52)) He) as Hfl.
  assert (2 ^ 52 <= n / 2 ^ (L - 52)) by (apply Z.div_le_lower_bound; lia).
  assert (2 ^ 52 * 2 ^ (L - 52) <= rne n (2 ^ (L - 52)) * 2 ^ (L - 52)) by nia.
  assert (2 ^ 53 <= 2 ^ L) by (apply Z.pow_le_mono_r; lia). lia.
Qed.

(** The quotient in [double], rounded up. *)
Lemma ceil_div_of_size_t t n :
  0 < t < 2 ^ 53 -> 0 < n ->
  ceil (div (of_size_t t) (of_size_t n)) = ceil_div t n.
Proof.
  intros Ht Hn. rewrite (of_size_t_small t Ht).
  assert (HLt : 0 <= Z.log2 t < 53).
  { split; [apply Z.log2_nonneg | apply Z.log2_lt_pow2; lia]. }
  set (Lt := Z.log2 t) in *.
  destruct (Z.lt_ge_cases n (2 ^ 53)) as [Hsmall|Hlarge].
  - rewrite (of_size_t_small n) by lia.
    assert (HLn : 0 <= Z.log2 n < 53).
    { split; [apply Z.log2_nonneg | apply Z.log2_lt_pow2; lia]. }
    set (Ln := Z.log2 n) in *. unfold div. cbn [mant expo].
    replace (Lt - 52 - (Ln - 52)) with (Lt - Ln) by lia.
    replace (Ln - 52 - (Lt - 52)) with (Ln - Lt) by lia.
    destruct (Z.le_ge_cases Ln Lt).
    + rewrite (Z.max_r 0 (Lt - Ln)), (Z.max_l 0 (Ln - Lt)) by lia.
      rewrite Z.pow_0_r, Z.mul_1_r, <- Z.mul_assoc, <- Z.pow_add_r by lia.
      replace (52 - Lt + (Lt - Ln)) with (52 - Ln) by lia.
      apply ceil_round_ratio; try lia; apply Z.pow_pos_nonneg; lia.
    + rewrite (Z.max_l 0 (Lt - Ln)), (Z.max_r 0 (Ln - Lt)) by lia.
      rewrite Z.pow_0_r, Z.mul_1_r, <- Z.mul_assoc, <- Z.pow_add_r by lia.
      replace (52 - Ln + (Ln - Lt)) with (52 - Lt) by lia.
      apply ceil_round_ratio; try lia; apply Z.pow_pos_nonneg; lia.
  - destruct (of_size_t_large n) as (m & -> & HLn & Hm); [lia|].
    set (Ln := Z.log2 n) in *. unfold div. cbn [mant expo].
    replace (Lt - 52 - (Ln - 52)) with (Lt - Ln) by lia.
    replace (Ln - 52 - (Lt - 52)) with (Ln - Lt) by lia.
    rewrite (Z.max_l 0 (Lt - Ln)), (Z.max_r 0 (Ln - Lt)) by lia.
    rewrite Z.pow_0_r, Z.mul_1_r.
    replace (Ln - Lt) with ((Ln - 52) + (52 - Lt)) by lia.
    rewrite Z.pow_add_r, Z.mul_assoc by lia.
    rewrite ceil_round_ratio; try lia; try (apply Z.pow_pos_nonneg; lia).
    rewrite (ceil_div_unique t n 1), (ceil_div_unique t _ 1); lia.
Qed.

(** The estimate for a total below [2^53] bytes: the exact ceiling of the
    average, and the default when that is zero. *)
Lemma ComputeValueSizeEstimation_spec total n :
  0 <= total < 2 ^ 53 -> 0 <= n ->
  ComputeValueSizeEstimation total n =
    Ret (let e := ceil_div total (Z.max 1 n) in
         if e =? 0 then DEFAULT_ESTIMATION else e).
Proof.
  intros Ht Hn. unfold ComputeValueSizeEstimation.
  replace (if n =? 0 then 1 else n) with (Z.max 1 n)
    by (destruct (n =? 0) eqn:E; lia).
  destruct (Z.eq_dec total 0) as [->|Hne].
  - replace (ceil_div 0 (Z.max 1 n)) with 0
      by (symmetry; apply ceil_div_unique; lia).
    reflexivity.
  - rewrite ceil_div_of_size_t by lia.
    pose proof (ceil_div_bounds total (Z.max 1 n) ltac:(lia)).
    unfold to_size_t. destruct (_ <=? _) eqn:E; [done|].
    unfold SIZE_MAX in E. change (2 ^ 64) with 18446744073709551616 in E.
    change (2 ^ 53) with 9007199254740992 in Ht. nia.
Qed.
End Estimate.

(** ** The variable-width column: construction from a list and slicing *)

Section StringBuild.
Import ColumnString StringSpec.
Context (mem : caller_memory).

Lemma total_bytes_nonneg data : 0 <= total_bytes data.
Proof.
  induction data as [|s data IH]; [done|]. cbn [total_bytes foldr].
  pose proof (len_nonneg s). unfold total_bytes in IH. lia.
Qed.

Lemma total_bytes_cons s data : total_bytes (s :: data) = len s + total_bytes data.
Proof. reflexivity. Qed.

Lemma total_bytes_bound data T :
  total_bytes data <= T -> Forall (fun s => len s <= T) data.
Proof.
  induction data as [|s data IH]; intros H; [constructor|].
  rewrite total_bytes_cons in H. pose proof (total_bytes_nonneg data).
  pose proof (len_nonneg s). constructor; [lia|]. apply IH. lia.
Qed.

Lemma foldl_wrap_sum data acc :
  0 <= acc -> acc + total_bytes data <= SIZE_MAX ->
  foldl (fun result sz => wrap (result + sz)) acc (len <$> data)
  = acc + total_bytes data.
Proof.
  revert acc. induction data as [|s data IH]; intros acc H0 H.
  - simpl. unfold total_bytes. simpl. lia.
  - rewrite total_bytes_cons in *. pose proof (total_bytes_nonneg data).
    pose proof (len_nonneg s). rewrite fmap_cons. cbn [foldl].
    rewrite wrap_small by lia. rewrite IH by lia. lia.
Qed.

Lemma foldl_wrap_range sizes acc :
  0 <= acc <= SIZE_MAX ->
  0 <= foldl (fun result sz => wrap (result + sz)) acc sizes <= SIZE_MAX.
Proof.
  revert acc. induction sizes as [|sz sizes IH]; intros acc H; [done|].
  cbn [foldl]. apply IH. size_arith.
Qed.

Lemma ComputeTotalSize_range sizes begin n :
  0 <= ComputeTotalSize sizes begin n <= SIZE_MAX.
Proof.
  unfold ComputeTotalSize. destruct (_ <? _); [|size_arith].
  apply foldl_wrap_range. size_arith.
Qed.

(** The whole container, when the total fits [size_t]. *)
Lemma ComputeTotalSize_all data :
  total_bytes data <= SIZE_MAX -> Z.of_nat (length data) <= SIZE_MAX ->
  ComputeTotalSize (len <$> data) 0 SIZE_MAX = total_bytes data.
Proof.
  intros Ht Hn. unfold ComputeTotalSize. rewrite length_fmap.
  destruct (_ <? _) eqn:E.
  - rewrite Z.sub_0_r, wrap_small by lia. rewrite Z.min_r by lia.
    rewrite Nat2Z.id. change (Z.to_nat 0) with 0%nat. rewrite drop_0.
    rewrite take_ge by (rewrite length_fmap; lia).
    rewrite foldl_wrap_sum; lia.
  - destruct data; [done|]. apply Z.ltb_ge in E. simpl length in E. lia.
Qed.

Lemma holds_sv_len c l : holds mem c l -> sv_len <$> items_ c = len <$> l.
Proof.
  unfold holds. generalize (items_ c). intros vs. revert l.
  induction vs as [|v vs IH]; intros [|s l] H; try done.
  rewrite !fmap_cons in *. injection H as Hv Hrest.
  f_equal; [|by apply IH]. symmetry. by apply (view_bytes_len mem c).
Qed.

(** Copying a list into a block that has room for all of it. *)
Lemma for_each_AppendUnsafe data c v b l :
  wf mem c -> blocks_ c = v ++ [b] ->
  size b + total_bytes data <= capacity b -> holds mem c l ->
  exists c',
    for_each data AppendUnsafe c = (Ret tt, c') /\
    wf mem c' /\ holds mem c' (l ++ data) /\
    append_data_ c' = append_data_ c /\
    value_size_estimation_ c' = value_size_estimation_ c /\
    next_block_size_ c' = next_block_size_ c.
Proof.
  revert c b l. induction data as [|s data IH]; intros c b l Hwf Hb Hroom Hl.
  - exists c. by rewrite app_nil_r.
  - rewrite total_bytes_cons in Hroom. pose proof (total_bytes_nonneg data).
    pose proof (len_nonneg s).
    destruct (AppendUnsafe_spec mem c v b s Hwf Hb)
      as (c1 & Hrun & Hwf1 & _ & Hholds & Hb1 & Ha1 & He1 & Hn1); [lia|].
    destruct (IH c1 (block_after b s) (l ++ [s]) Hwf1 Hb1)
      as (c' & Hrun' & Hwf' & H' & Ha' & He' & Hn'); [simpl; lia|by apply Hholds|].
    exists c'. split; [|split; [done|split]].
    + cbn [for_each]. unfold bind. by rewrite Hrun.
    + by rewrite <- app_assoc in H'.
    + by rewrite Ha', He', Hn'.
Qed.

Lemma for_each_fmap {S A B} (f : A -> B) (l : list A) (body : B -> M S unit) :
  for_each (f <$> l) body = for_each l (fun a => body (f a)).
Proof. induction l as [|a l IH]; [done|]. cbn. by rewrite IH. Qed.

Lemma make_fresh e : 0 <= e -> make e = Ret (fresh e).
Proof.
  intros He. unfold make, construct. destruct (e <? 0) eqn:E; [lia|done].
Qed.

Lemma wf_fresh e : wf mem (fresh e).
Proof. split; [constructor|]. split; [constructor|]. cbn. size_arith. Qed.

Lemma holds_fresh e : holds mem (fresh e) [].
Proof. done. Qed.

Lemma make_copy_spec data :
  total_bytes data < 2 ^ 53 -> Z.of_nat (length data) <= SIZE_MAX ->
  exists c,
    make_copy data = Ret c /\ wf mem c /\ holds mem c data /\
    value_size_estimation_ c =
      (let e := ceil_div (total_bytes data) (Z.max 1 (Z.of_nat (length data))) in
       if e =? 0 then DEFAULT_ESTIMATION else e).
Proof.
  intros Ht Hn. pose proof (total_bytes_nonneg data) as H0.
  assert (Hmax : total_bytes data <= SIZE_MAX).
  { unfold SIZE_MAX. change (2 ^ 64) with 18446744073709551616.
    change (2 ^ 53) with 9007199254740992 in Ht. lia. }
  unfold make_copy, make_default. rewrite make_fresh by done.
  rewrite ComputeTotalSize_all by done. unfold construct.
  rewrite bind_modify.
  set (c1 := set_blocks _ _).
  assert (Hwf1 : wf mem c1).
  { split; [|split; [constructor|cbn; size_arith]]. cbn.
    apply Forall_singleton, block_make_ok. lia. }
  destruct (for_each_AppendUnsafe data c1 [] (Block_make (total_bytes data)) []
              Hwf1 eq_refl)
    as (c2 & Hrun & Hwf2 & H2 & _ & _ & Hn2); [simpl; lia|done|].
  unfold bind at 1. rewrite Hrun.
  rewrite ComputeValueSizeEstimation_spec by lia.
  unfold bind, lift, modify.
  eexists. split; [reflexivity|]. split; [|split; [|done]].
  - destruct Hwf2 as (? & ? & ?). by split.
  - by apply (holds_ext mem c2).
Qed.

Lemma make_move_spec data :
  total_bytes data < 2 ^ 53 -> Z.of_nat (length data) <= SIZE_MAX ->
  exists c,
    make_move data = Ret c /\ wf mem c /\ holds mem c data /\
    value_size_estimation_ c =
      (let e := ceil_div (total_bytes data) (Z.max 1 (Z.of_nat (length data))) in
       if e =? 0 then DEFAULT_ESTIMATION else e).
Proof.
  intros Ht Hn. pose proof (total_bytes_nonneg data) as H0.
  assert (Hmax : total_bytes data <= SIZE_MAX).
  { unfold SIZE_MAX. change (2 ^ 64) with 18446744073709551616.
    change (2 ^ 53) with 9007199254740992 in Ht. lia. }
  unfold make_move, make_default. rewrite make_fresh by done.
  unfold construct.
  assert (Hops : Forall2 (fun op s => appended mem op = Some s /\ len s <= SIZE_MAX)
                   (by_transfer <$> data) data).
  { apply Forall2_fmap_l, Forall_Forall2_diag.
    eapply List.Forall_impl; [|apply (total_bytes_bound data _ Hmax)]. done. }
  destruct (for_each_run_append mem (fresh DEFAULT_ESTIMATION) [] _ _
              (wf_fresh _) (holds_fresh _) Hops)
    as (c1 & Hrun & Hwf1 & H1).
  rewrite for_each_fmap in Hrun. unfold bind at 1.
  change (fun a => run_append (by_transfer a)) with emplace_owned in Hrun.
  change (for_each data (λ a : bytes, run_append (by_transfer a)))
    with (for_each data emplace_owned) in Hrun.
  rewrite Hrun. rewrite bind_get.
  rewrite (holds_sv_len c1 data H1), (holds_length mem c1 data H1).
  rewrite ComputeTotalSize_all by done.
  rewrite ComputeValueSizeEstimation_spec by lia.
  unfold bind, lift, modify.
  eexists. split; [reflexivity|]. split; [|split; [|done]].
  - destruct Hwf1 as (? & ? & ?). by split.
  - by apply (holds_ext mem c1).
Qed.

Lemma holds_item_bytes c l (i : nat) s :
  holds mem c l -> l !! i = Some s -> item_bytes mem c (Z.of_nat i) = Ret s.
Proof.
  intros H Hi. destruct (holds_lookup mem c l i s H Hi) as (v & Hv & Hs).
  unfold item_bytes. by rewrite Nat2Z.id, Hv, Hs.
Qed.

Lemma holds_len_bound c l :
  wf mem c -> holds mem c l -> Forall (fun s => len s <= SIZE_MAX) l.
Proof.
  intros (_ & Hitems & _) H. apply Forall_lookup. intros i s Hi.
  destruct (holds_lookup mem c l i s H Hi) as (v & Hv & Hs).
  rewrite Forall_lookup in Hitems. destruct (Hitems _ _ Hv) as [Hlen _].
  rewrite (view_bytes_len mem c v s Hs). lia.
Qed.

(** The loop of [Slice]: copy appends of [k] source elements from index
    [from] on. *)
Lemma slice_loop c l k from r acc :
  holds mem c l -> Forall (fun s => len s <= SIZE_MAX) l ->
  wf mem r -> holds mem r acc ->
  (from + k <= length l)%nat ->
  exists r',
    for_range (Z.of_nat from) k
      (fun i => bind (lift (item_bytes mem c i)) (fun s => Append s)) r
      = (Ret tt, r') /\
    wf mem r' /\ holds mem r' (acc ++ take k (drop from l)) /\
    value_size_estimation_ r' = value_size_estimation_ r.
Proof.
  intros Hl Hlen. revert from r acc.
  induction k as [|k IH]; intros from r acc Hwf Hacc Hk.
  - exists r. rewrite take_0, app_nil_r. done.
  - destruct (lookup_lt_is_Some_2 l from) as [s Hs]; [lia|].
    cbn [for_range]. unfold bind at 1. unfold bind at 1, lift.
    rewrite (holds_item_bytes c l from s Hl Hs).
    rewrite Forall_lookup in Hlen.
    destruct (Append_spec mem r s Hwf (Hlen _ _ Hs))
      as (r1 & -> & Hwf1 & _ & H1 & _ & He1).
    replace (Z.of_nat from + 1) with (Z.of_nat (S from)) by lia.
    destruct (IH (S from) r1 (acc ++ [s]) Hwf1 (H1 _ Hacc))
      as (r' & Hrun & Hwf' & H' & He'); [lia|].
    exists r'. split; [done|]. split; [done|]. split; [|by rewrite He'].
    rewrite (drop_S _ _ _ Hs). cbn [take].
    by rewrite <- app_assoc in H'.
Qed.

(** [Slice] copies the elements of the clamped range into a new column. *)
Lemma string_slice c l begin n :
  wf mem c -> holds mem c l -> 0 <= value_size_estimation_ c ->
  Z.of_nat (length l) <= SIZE_MAX -> 0 <= begin -> 0 <= n ->
  exists r,
    Slice mem begin n c = Ret r /\ wf mem r /\
    holds mem r (take (Z.to_nat n) (drop (Z.to_nat begin) l)).
Proof.
  intros Hwf Hl He Hsz Hb Hn. unfold Slice, CloneEmpty.
  rewrite (holds_length mem c l Hl), make_fresh by done.
  destruct (_ <=? _) eqn:E.
  - exists (fresh (value_size_estimation_ c)). split; [done|].
    split; [apply wf_fresh|]. rewrite drop_ge by lia. by rewrite take_nil.
  - rewrite wrap_small by lia.
    set (m := Z.min n (Z.of_nat (length l) - begin)).
    unfold construct. rewrite bind_modify.
    set (r1 := set_blocks _ _).
    assert (Hwf1 : wf mem r1).
    { split; [|split; [constructor|cbn; size_arith]]. cbn.
      apply Forall_singleton, block_make_ok.
      pose proof (ComputeTotalSize_range (sv_len <$> items_ c) begin m).
      size_arith. }
    destruct (slice_loop c l (Z.to_nat m) (Z.to_nat begin) r1 [] Hl
                (holds_len_bound c l Hwf Hl) Hwf1)
      as (r' & Hrun & Hwf' & H' & _); [done|lia|].
    rewrite Z2Nat.id in Hrun by lia.
    change (fun i => bind (lift (item_bytes mem c i)) (fun s => Append s))
      with (fun i => (let* s := lift (item_bytes mem c i) in Append s)%cxx) in Hrun.
    rewrite Hrun. exists r'. split; [done|]. split; [done|].
    simpl in H'. subst m.
    destruct (Z.le_ge_cases n (Z.of_nat (length l) - begin)).
    + by rewrite Z.min_l in H' by done.
    + rewrite Z.min_r in H' by done.
      rewrite take_ge in H' by (rewrite length_drop; lia).
      by rewrite take_ge by (rewrite length_drop; lia).
Qed.
End StringBuild.

(** ** The invariant of the variable-width column is kept *)

Section StringInvariant.
Import ColumnString StringSpec WireFormat.
Context (mem : caller_memory).

Lemma Z_of_byte_range b : 0 <= Z_of_byte b < 256.
Proof. unfold Z_of_byte. pose proof (Byte.to_N_bounded b). lia. Qed.

Lemma byte_of_Z_of_byte b : byte_of_Z (Z_of_byte b) = b.
Proof.
  unfold byte_of_Z. rewrite Z.mod_small by apply Z_of_byte_range.
  unfold Z_of_byte. by rewrite N2Z.id, Byte.of_to_N.
Qed.

Lemma le_decode_range bs : 0 <= le_decode bs < 256 ^ Z.of_nat (length bs).
Proof.
  induction bs as [|b bs IH]; [simpl; lia|].
  cbn [le_decode length]. rewrite Nat2Z.inj_succ, Z.pow_succ_r by lia.
  pose proof (Z_of_byte_range b). lia.
Qed.

(** Every 8 bytes are the encoding of the length they decode to. *)
Lemma le_encode_decode bs : le_encode (length bs) (le_decode bs) = bs.
Proof.
  induction bs as [|b bs IH]; [done|]. cbn [le_decode length le_encode].
  pose proof (Z_of_byte_range b) as Hb. f_equal.
  - unfold byte_of_Z.
    replace ((Z_of_byte b + 256 * le_decode bs) mod 256) with (Z_of_byte b)
      by lia.
    unfold Z_of_byte. by rewrite N2Z.id, Byte.of_to_N.
  - replace ((Z_of_byte b + 256 * le_decode bs) / 256) with (le_decode bs)
      by lia.
    done.
Qed.

Lemma ReadUInt64_inv input n rest :
  ReadUInt64 input = (Some n, rest) ->
  input = le_encode 8 n ++ rest /\ 0 <= n <= SIZE_MAX.
Proof.
  unfold ReadUInt64. destruct (8 <=? len input) eqn:E; [|done].
  intros [= <- <-]. apply Z.leb_le in E. unfold len in E.
  assert (Hlen : length (take 8 input) = 8%nat) by (rewrite length_take; lia).
  split.
  - rewrite <- Hlen at 1. by rewrite le_encode_decode, take_drop.
  - pose proof (le_decode_range (take 8 input)) as H. rewrite Hlen in H.
    change (256 ^ Z.of_nat 8) with 18446744073709551616 in H.
    unfold SIZE_MAX. change (2 ^ 64) with 18446744073709551616. lia.
Qed.

Lemma ReadBytes_inv input n got rest :
  0 <= n -> ReadBytes input n = (true, got, rest) ->
  input = got ++ rest /\ len got = n.
Proof.
  unfold ReadBytes. intros Hn. destruct (n <=? len input) eqn:E; [|done].
  intros [= <- <-]. apply Z.leb_le in E.
  split; [by rewrite take_drop | by apply len_take].
Qed.

(** The loop of [LoadBody] on any stream, in the model: it yields a flag;
    when the flag is [true] the invariant holds of the new items and
    blocks, and the bytes consumed are the encoding of the rows that were
    added. *)
Lemma load_rows_any c n input st :
  new_blocks st <> [] -> wf mem (loaded c st) ->
  exists ok rest st',
    load_rows n input st = (Ret (ok, rest), st') /\
    (ok = true ->
     wf mem (loaded c st') /\
     exists l', length l' = n /\ input = wire_rows l' ++ rest /\
       forall l, holds mem (loaded c st) l -> holds mem (loaded c st') (l ++ l')).
Proof.
  revert input st. induction n as [|n IH]; intros input st Hne Hwf.
  - exists true, input, st. split; [done|]. intros _. split; [done|].
    exists []. split; [done|]. split; [done|]. intros l Hl. by rewrite app_nil_r.
  - destruct (ReadUInt64 input) as [[n0|] input1] eqn:Hu.
    2: { exists false, input1, st. split; [|done]. cbn [load_rows]. by rewrite Hu. }
    destruct (ReadUInt64_inv _ _ _ Hu) as [-> Hn0].
    destruct (ReadBytes input1 n0) as [[ok got] input2] eqn:Hb.
    destruct ok.
    + destruct (ReadBytes_inv _ _ _ _ (proj1 Hn0) Hb) as [-> <-].
      destruct (load_rows_step mem c n got input2 st Hne Hwf (proj2 Hn0))
        as (st1 & -> & Hne1 & Hwf1 & H1).
      destruct (IH input2 st1 Hne1 Hwf1) as (ok & rest & st' & Hrun & Hok).
      exists ok, rest, st'. split; [done|]. intros ->.
      destruct (Hok eq_refl) as (Hwf' & l' & Hlen & -> & Hl').
      split; [done|]. exists (got :: l'). split; [by rewrite <- Hlen|].
      split; [cbn [wire_rows]; by rewrite <- !app_assoc|].
      intros l Hl. replace (l ++ got :: l') with ((l ++ [got]) ++ l')
        by by rewrite <- app_assoc.
      by apply Hl', H1.
    + cbn [load_rows]. rewrite Hu, Hb.
      destruct st as [items blocks]. cbn [new_blocks] in Hne.
      destruct (list.last blocks) as [b|] eqn:Hlast;
        [|by apply last_None in Hlast].
      apply last_Some in Hlast as [v ->].
      unfold bind at 1. rewrite in_new_blocks_on_back. cbn [fst snd].
      destruct (GetAvailable b <? n0).
      * unfold bind at 1. unfold in_new_blocks at 1, modify at 1.
        cbn [new_blocks new_items]. unfold emplace_back at 1.
        unfold bind at 1. rewrite in_new_blocks_on_back.
        cbn [fst snd receive_into_tail negb].
        eexists false, _, _. split; [reflexivity|done].
      * rewrite bind_ret. unfold bind at 1. rewrite in_new_blocks_on_back.
        cbn [fst snd receive_into_tail negb].
        eexists false, _, _. split; [reflexivity|done].
Qed.

(** [LoadBody] on any stream keeps the invariant, and what a successful
    load consumed is what [SaveBody] writes for the loaded column. *)
Lemma LoadBody_any input rows c rest c' :
  0 <= rows -> wf mem c ->
  LoadBody input rows c = (Ret (true, rest), c') ->
  wf mem c' /\
  exists l, Z.of_nat (length l) = rows /\ holds mem c' l /\
            input = wire_rows l ++ rest /\
            SaveBody mem [] c' = Ret (wire_rows l).
Proof.
  intros Hrows Hwf. unfold LoadBody. destruct (rows =? 0) eqn:E.
  - apply Z.eqb_eq in E. intros [= <- <-]. destruct Hwf as (_ & _ & Hnext).
    split; [by split; [constructor|split; [constructor|]]|].
    exists []. split; [by subst|]. by split; [|split].
  - unfold bind at 1. unfold in_new_blocks at 1, modify at 1.
    cbn [new_blocks new_items].
    set (st0 := {| new_items := []; new_blocks := emplace_back _ [] |}).
    assert (Hwf0 : wf mem (loaded c st0)).
    { destruct Hwf as (_ & _ & Hnext). split; [|split]; cbn; [|constructor|done].
      apply Forall_singleton, block_make_ok. size_arith. }
    destruct (load_rows_any c (Z.to_nat rows) input st0)
      as (ok & rest0 & st' & -> & Hok); [done..|].
    destruct ok; [|done]. intros [= <- <-].
    destruct (Hok eq_refl) as (Hwf' & l & Hlen & -> & Hl).
    split; [done|]. exists l. split; [lia|].
    assert (H' : holds mem (loaded c st') l) by by apply (Hl []).
    split; [done|]. split; [done|].
    by apply (SaveBody_spec mem _ l []).
Qed.

Lemma wf_make e c : make e = Ret c -> wf mem c.
Proof.
  unfold make, construct. destruct (e <? 0); [done|]. intros [= <-].
  apply wf_fresh.
Qed.

Lemma wf_Clear c : wf mem c -> wf mem (snd (Clear c)).
Proof.
  intros (_ & _ & Hnext). by split; [constructor|split; [constructor|]].
Qed.


Lemma wf_Reserve new_cap c : wf mem c -> wf mem (snd (Reserve new_cap c)).
Proof.
  intros Hwf. pose proof Hwf as (Hblocks & Hitems & Hnext).
  unfold Reserve, vector_reserve. unfold bind at 1.
  destruct (vector_max_size sizeof_string_view <? new_cap); [done|].
  cbn [ret]. rewrite bind_get.
  destruct (match list.last (blocks_ c) with None => _ | Some _ => _ end).
  - unfold modify. cbn [snd].
    apply (wf_extends mem c); try done.
    + apply extends_emplace_back.
    + cbn. apply Forall_app. split; [done|].
      apply Forall_singleton, block_make_ok. size_arith.
  - destruct (list.last (blocks_ c)); [|done]. unfold modify. cbn [snd].
    split; [done|]. split; [done|]. cbn. size_arith.
Qed.

Lemma wf_Swap (a b : t) :
  wf mem a -> wf mem b ->
  exists a' b',
    Swap (a, IsString b : Column) = (Ret tt, (a', IsString b')) /\
    wf mem a' /\ wf mem b'.
Proof.
  intros (Hba & Hia & Hna) (Hbb & Hib & Hnb). do 2 eexists.
  split; [cbn; reflexivity|]. split; (split; [done|split; [|done]]).
  - eapply List.Forall_impl; [|exact Hib]. by intros [[]].
  - eapply List.Forall_impl; [|exact Hia]. by intros [[]].
Qed.
End StringInvariant.

(** * Main results *)

(** ** Appending to the fixed-width column *)

Section FixedResults.
Import ColumnFixedString FixedSpec.



(** C4.  A string longer than [string_size_] makes [Append] throw
    [ValidationError]; the column is left exactly as it was, and so is its
    [Size()]. *)
Theorem fixed_append_too_long (c : t) (s : bytes) :
  string_size_ c < len s ->
  Append s c = (Throw ValidationError, c) /\
  Size (snd (Append s c)) = Size c.
Proof.
  intros H. assert (Hrun : Append s c = (Throw ValidationError, c)).
  { unfold Append. rewrite bind_get. destruct (_ <? _) eqn:E; [done | lia]. }
  by rewrite Hrun.
Qed.

Lemma fixed_append_too_long_witness :
  Append [x61; x62; x63; x64] (snd (Append [x78] (make 3)))
  = (Throw ValidationError, snd (Append [x78] (make 3))) /\
  Size (snd (Append [x61; x62; x63; x64] (snd (Append [x78] (make 3)))))
  = Size (snd (Append [x78] (make 3))).
Proof. apply fixed_append_too_long. vm_compute. reflexivity. Defined.

End FixedResults.

(** ** Appending to the variable-width column *)

Section StringResults.
Import ColumnString StringSpec.


Lemma full_block_column_reached :
  make_copy [[x61; x62]] = Ret full_block_column.
Proof. reflexivity. Qed.

Lemma wf_full_block_column mem : wf mem full_block_column.
Proof.
  split; [|split].
  - apply Forall_singleton. unfold block_ok. vm_compute. intuition discriminate.
  - apply Forall_singleton. split; [vm_compute; intuition discriminate|].
    eexists. split; [reflexivity|]. vm_compute. intuition discriminate.
  - vm_compute. intuition discriminate.
Qed.



(** C6.  A column built from a list of strings, by the copying or by the
    moving constructor, gets as its estimate the ceiling of
    [total_bytes / count], with a count of zero taken as one, and 1 when
    that ceiling is zero.  The quotient is computed in [double]: the
    statement is for totals below [2^53] bytes, where that is exact. *)
Theorem estimate_from_list (mem : caller_memory) (data : list bytes) :
  total_bytes data < 2 ^ 53 -> Z.of_nat (length data) <= SIZE_MAX ->
  let e := ceil_div (total_bytes data) (Z.max 1 (Z.of_nat (length data))) in
  exists c1 c2,
    make_copy data = Ret c1 /\ make_move data = Ret c2 /\
    value_size_estimation_ c1 = (if e =? 0 then 1 else e) /\
    value_size_estimation_ c2 = (if e =? 0 then 1 else e) /\
    holds mem c1 data /\ holds mem c2 data.
Proof.
  intros Ht Hn e.
  destruct (make_copy_spec mem data Ht Hn) as (c1 & H1 & _ & Hh1 & He1).
  destruct (make_move_spec mem data Ht Hn) as (c2 & H2 & _ & Hh2 & He2).
  exists c1, c2. by rewrite He1, He2.
Qed.

(** Ten bytes in three strings: the estimate is 4.  *)
Lemma estimate_from_list_witness :
  exists c1 c2,
    make_copy [[x61; x62]; [x63; x64; x65; x66]; [x67; x68; x69; x6a]] = Ret c1 /\
    make_move [[x61; x62]; [x63; x64; x65; x66]; [x67; x68; x69; x6a]] = Ret c2 /\
    value_size_estimation_ c1 = 4 /\ value_size_estimation_ c2 = 4.
Proof.
  destruct (estimate_from_list []
              [[x61; x62]; [x63; x64; x65; x66]; [x67; x68; x69; x6a]])
    as (c1 & c2 & H1 & H2 & He1 & He2 & _).
  - vm_compute. reflexivity.
  - vm_compute. discriminate.
  - exists c1, c2. split; [exact H1|]. split; [exact H2|].
    split; [exact He1 | exact He2].
Defined.

(** The bound is sharp: one byte more than [2^53] is rounded away. *)
Lemma estimate_rounds_above_2_53 :
  ComputeValueSizeEstimation (2 ^ 53 + 1) 1 = Ret (2 ^ 53).
Proof. vm_compute. reflexivity. Qed.

(** Without any string the estimate is the default. *)
Lemma estimate_of_empty_list :
  exists c1 c2,
    make_copy [] = Ret c1 /\ make_move [] = Ret c2 /\
    value_size_estimation_ c1 = 1 /\ value_size_estimation_ c2 = 1.
Proof. do 2 eexists. repeat split; reflexivity. Qed.

Lemma owning_column_reached :
  Append_move [x61] (fresh 1) = (Ret tt, owning_column).
Proof. reflexivity. Qed.

(** C5, as stated, fails: after a load of zero rows the owned buffer is
    still there, while [Clear()] drops it. *)
Lemma load_zero_rows_keeps_owned_buffers :
  fst (LoadBody [] 0 owning_column) = Ret (true, []) /\
  append_data_ (snd (LoadBody [] 0 owning_column)) = [[x61]] /\
  append_data_ (snd (Clear owning_column)) = [] /\
  snd (LoadBody [] 0 owning_column) <> snd (Clear owning_column).
Proof. repeat split; try reflexivity. vm_compute. discriminate. Qed.

(** C5, amended.  [LoadBody] with [rows == 0] returns [true] without
    reading the stream or making a block, and empties [items_] and
    [blocks_], so that [Size()] is 0; [append_data_], the estimate and
    [next_block_size_] stay as they were.  The column is in the state
    [Clear()] would leave exactly when it owned no buffer. *)
Theorem load_zero_rows (input : InputStream) (c : t) :
  exists c',
    LoadBody input 0 c = (Ret (true, input), c') /\
    items_ c' = [] /\ blocks_ c' = [] /\ Size c' = 0 /\
    append_data_ c' = append_data_ c /\
    value_size_estimation_ c' = value_size_estimation_ c /\
    next_block_size_ c' = next_block_size_ c /\
    (append_data_ c = [] -> c' = snd (Clear c)).
Proof.
  eexists. split; [reflexivity|]. repeat split.
  intros Ha. destruct c. cbn in *. by subst.
Qed.

Lemma load_zero_rows_witness :
  exists c',
    LoadBody [x00] 0 full_block_column = (Ret (true, [x00]), c') /\
    items_ c' = [] /\ blocks_ c' = [] /\ Size c' = 0 /\
    c' = snd (Clear full_block_column).
Proof.
  destruct (load_zero_rows [x00] full_block_column)
    as (c' & Hrun & Hi & Hb & Hs & _ & _ & _ & Hclear).
  exists c'. split; [exact Hrun|]. split; [exact Hi|]. split; [exact Hb|].
  split; [exact Hs|]. apply Hclear. reflexivity.
Defined.

(** C10.  When [LoadBody] returns [false] for a positive number of rows,
    the column is exactly as it was before the call, in its views, its
    blocks and everything else: what was read into the local blocks is
    dropped. *)
Theorem load_failure_atomic (input : InputStream) (rows : Z) (c : t) :
  forall rest c',
    0 < rows -> LoadBody input rows c = (Ret (false, rest), c') -> c' = c.
Proof.
  destruct (LoadBody_total input rows c) as (ok & rest & c' & Hrun & Hfail).
  intros rest0 c0 _ H. rewrite Hrun in H.
  injection H as -> _ <-. by apply Hfail.
Qed.

(** A stream that announces five bytes and brings two: the load returns
    [false] and the column is the one it was. *)
Lemma load_failure_atomic_witness :
  exists rest,
    LoadBody [x05; x00; x00; x00; x00; x00; x00; x00; x61; x62] 1
      full_block_column
    = (Ret (false, rest), full_block_column).
Proof.
  exists [x61; x62].
  rewrite (surjective_pairing (LoadBody _ _ _)).
  apply pair_equal_spec. split.
  - vm_compute. reflexivity.
  - eapply (load_failure_atomic
              [x05; x00; x00; x00; x00; x00; x00; x00; x61; x62] 1
              full_block_column).
    + lia.
    + vm_compute. reflexivity.
Defined.
End StringResults.

(** ** Both kinds of column *)

Section BothKinds.

Lemma fixed_observe_ext (c c' : ColumnFixedString.t) (i : Z) :
  ColumnFixedString.string_size_ c' = ColumnFixedString.string_size_ c ->
  basic_string.chars (ColumnFixedString.data_ c')
  = basic_string.chars (ColumnFixedString.data_ c) ->
  FixedSpec.observe c' i = FixedSpec.observe c i.
Proof.
  intros Hss Hch.
  unfold FixedSpec.observe, ColumnFixedString.At, ColumnFixedString.view_bytes,
    basic_string.size.
  rewrite Hss, Hch. destruct (_ <? _); [|done]. cbn. by rewrite ?Hch.
Qed.

Lemma fixed_Size_ext (c c' : ColumnFixedString.t) :
  ColumnFixedString.string_size_ c' = ColumnFixedString.string_size_ c ->
  basic_string.chars (ColumnFixedString.data_ c')
  = basic_string.chars (ColumnFixedString.data_ c) ->
  ColumnFixedString.Size c' = ColumnFixedString.Size c.
Proof.
  intros Hss Hch. unfold ColumnFixedString.Size, basic_string.size.
  by rewrite Hss, Hch.
Qed.

(** What [At] shows of a column that holds [l], at any index. *)
Lemma string_observe_all mem (c : ColumnString.t) l i :
  StringSpec.holds mem c l ->
  StringSpec.observe mem c i =
    if i <? Z.of_nat (length l)
    then match l !! Z.to_nat i with
         | Some s => Ret (Some s)
         | None => Throw out_of_range
         end
    else Throw out_of_range.
Proof.
  intros H. unfold StringSpec.observe, ColumnString.At.
  rewrite (holds_length mem c l H). destruct (_ <? _); [|done].
  destruct (l !! Z.to_nat i) as [s|] eqn:Hs.
  - destruct (holds_lookup mem c l _ s H Hs) as (v & -> & Hv). by rewrite Hv.
  - apply lookup_ge_None in Hs. rewrite <- (holds_length mem c l H) in Hs.
    apply lookup_ge_None in Hs. by rewrite Hs.
Qed.

(** C2.  For either kind, what [SaveBody] writes for a well-formed column
    is read back by [LoadBody], given the row count [Size()], into a column
    with the same [Size()] and the same outcome of [At(i)] at every index.
    The column loaded into may hold anything before, of the same element
    size in the fixed-width case; the stream may continue after the body. *)
Theorem save_then_load_roundtrip :
  (forall (c c0 : ColumnFixedString.t) (l : list bytes) (rest : bytes),
     FixedSpec.holds c l ->
     ColumnFixedString.string_size_ c0 = ColumnFixedString.string_size_ c ->
     exists k c',
       ColumnFixedString.Size c = Ret k /\
       ColumnFixedString.LoadBody (ColumnFixedString.SaveBody [] c ++ rest) k c0
         = (Ret (true, rest), c') /\
       ColumnFixedString.Size c' = Ret k /\
       forall i, FixedSpec.observe c' i = FixedSpec.observe c i) /\
  (forall (mem : ColumnString.caller_memory) (c c0 : ColumnString.t)
          (rest : bytes),
     StringSpec.wf mem c ->
     exists out c',
       ColumnString.SaveBody mem [] c = Ret out /\
       ColumnString.LoadBody (out ++ rest) (ColumnString.Size c) c0
         = (Ret (true, rest), c') /\
       ColumnString.Size c' = ColumnString.Size c /\
       forall i, StringSpec.observe mem c' i = StringSpec.observe mem c i).
Proof.
  split.
  - intros c c0 l rest H Hss.
    destruct (fixed_save_load c l c0 [] rest H Hss) as (c' & Hsave & Hload & H' & Hss').
    exists (Z.of_nat (length l)), c'.
    pose proof (holds_rows_Size _ _ (fixed_holds_holds_rows c l H)) as Hsz.
    pose proof (holds_rows_Size _ _ (fixed_holds_holds_rows c' l H')) as Hsz'.
    split; [done|]. rewrite Hsave. split; [done|]. split; [done|].
    intros i. apply fixed_observe_ext; [done|].
    destruct H as (_ & _ & -> & _). by destruct H' as (_ & _ & -> & _).
  - intros mem c c0 rest Hwf. destruct (wf_holds mem c Hwf) as [l Hl].
    destruct (LoadBody_wire_rows mem l c0 rest (holds_len_bound mem c l Hwf Hl))
      as (c' & Hload & H' & _).
    exists (StringSpec.wire_rows l), c'. split; [by apply (SaveBody_spec mem c l [])|].
    rewrite (holds_Size mem c l Hl), (holds_Size mem c' l H').
    split; [done|]. split; [done|]. intros i.
    by rewrite (string_observe_all mem c l i Hl), (string_observe_all mem c' l i H').
Qed.

Lemma two_row_column_reached :
  (ColumnFixedString.Append [x61; x62] ;;; ColumnFixedString.Append [x78])%cxx
    (ColumnFixedString.make 2)
  = (Ret tt, FixedSpec.two_row_column).
Proof. reflexivity. Qed.

Lemma save_then_load_roundtrip_witness :
  (exists k c',
     ColumnFixedString.Size FixedSpec.two_row_column = Ret k /\
     ColumnFixedString.LoadBody
       (ColumnFixedString.SaveBody [] FixedSpec.two_row_column ++ [x07]) k
       (ColumnFixedString.make 2) = (Ret (true, [x07]), c') /\
     ColumnFixedString.Size c' = Ret k /\
     forall i, FixedSpec.observe c' i = FixedSpec.observe FixedSpec.two_row_column i) /\
  (exists out c',
     ColumnString.SaveBody [] [] StringSpec.full_block_column = Ret out /\
     ColumnString.LoadBody (out ++ [x07])
       (ColumnString.Size StringSpec.full_block_column) (StringSpec.fresh 8)
     = (Ret (true, [x07]), c') /\
     ColumnString.Size c' = ColumnString.Size StringSpec.full_block_column /\
     forall i, StringSpec.observe [] c' i
               = StringSpec.observe [] StringSpec.full_block_column i).
Proof.
  split.
  - apply (proj1 save_then_load_roundtrip FixedSpec.two_row_column
             (ColumnFixedString.make 2) [[x61; x62]; [x78; x00]] [x07]).
    + unfold FixedSpec.holds. split; [vm_compute; reflexivity|].
      split; [repeat constructor|]. split; [reflexivity|].
      vm_compute. discriminate.
    + reflexivity.
  - apply (proj2 save_then_load_roundtrip [] StringSpec.full_block_column
             (StringSpec.fresh 8) [x07]).
    apply wf_full_block_column.
Defined.

(** C9.  For two columns of the same kind [Swap] returns, each column then
    has the [Size()] the other had and shows at every index what the other
    showed, and a second [Swap] brings both back to exactly the state they
    started in. *)
Theorem swap_exchanges :
  (forall a b : ColumnFixedString.t,
     exists a' b',
       ColumnFixedString.Swap (a, IsFixedString b : Column)
         = (Ret tt, (a', IsFixedString b')) /\
       ColumnFixedString.Size a' = ColumnFixedString.Size b /\
       ColumnFixedString.Size b' = ColumnFixedString.Size a /\
       (forall i, FixedSpec.observe a' i = FixedSpec.observe b i) /\
       (forall i, FixedSpec.observe b' i = FixedSpec.observe a i) /\
       (ColumnFixedString.Swap ;;; ColumnFixedString.Swap)%cxx
         (a, IsFixedString b : Column)
         = (Ret tt, (a, IsFixedString b))) /\
  (forall (mem : ColumnString.caller_memory) (a b : ColumnString.t),
     exists a' b',
       ColumnString.Swap (a, IsString b : Column)
         = (Ret tt, (a', IsString b')) /\
       ColumnString.Size a' = ColumnString.Size b /\
       ColumnString.Size b' = ColumnString.Size a /\
       (forall i, StringSpec.observe mem a' i = StringSpec.observe mem b i) /\
       (forall i, StringSpec.observe mem b' i = StringSpec.observe mem a i) /\
       (ColumnString.Swap ;;; ColumnString.Swap)%cxx (a, IsString b : Column)
         = (Ret tt, (a, IsString b))).
Proof.
  split.
  - intros [na da] [nb db]. do 2 eexists. split; [cbn; reflexivity|].
    repeat split; reflexivity.
  - intros mem [ia ba aa ea na] [ib bb ab eb nb]. do 2 eexists.
    split; [cbn; reflexivity|]. repeat split; reflexivity.
Qed.

(** Swapping columns of different kinds is refused. *)
Lemma swap_other_kind (a : ColumnFixedString.t) (b : ColumnString.t) :
  ColumnFixedString.Swap (a, IsString b : Column) = (Throw bad_cast, (a, IsString b))
  /\ ColumnString.Swap (b, IsFixedString a : Column)
     = (Throw bad_cast, (b, IsFixedString a)).
Proof. split; reflexivity. Qed.

(** C8 fails on the fixed-width column when [len * string_size_] does not
    fit [size_t]: with an element size of 2 and [len = 2^63] the byte count
    wraps to 0, and the slice of a one-row column from index 0 comes back
    empty although the clamped range holds that row. *)
Theorem fixed_slice_length_overflow :
  exists c r,
    ColumnFixedString.Append [x78] (ColumnFixedString.make 2) = (Ret tt, c) /\
    ColumnFixedString.Size c = Ret 1 /\
    ColumnFixedString.Slice 0 (2 ^ 63) c = Ret r /\
    ColumnFixedString.Size r = Ret 0 /\
    FixedSpec.observe r 0 = Throw out_of_range /\
    FixedSpec.observe c 0 = Ret (Some [x78; x00]).
Proof.
  do 2 eexists. split; [vm_compute; reflexivity|]. repeat split; reflexivity.
Qed.
End BothKinds.

(** * Further properties *)

(** ** Sizes *)

Section Sizes.

Lemma total_bytes_app a b : total_bytes (a ++ b) = total_bytes a + total_bytes b.
Proof.
  induction a as [|s a IH]; [done|].
  cbn [app]. rewrite !total_bytes_cons, IH. lia.
Qed.

Lemma total_bytes_take_drop (n b : nat) data :
  total_bytes (take n (drop b data)) <= total_bytes data.
Proof.
  rewrite <- (take_drop b data) at 2.
  rewrite <- (take_drop n (drop b data)) at 2.
  rewrite !total_bytes_app.
  pose proof (total_bytes_nonneg (take b data)).
  pose proof (total_bytes_nonneg (drop n (drop b data))). lia.
Qed.


(** X1.  [ComputeTotalSize] over the sizes of the strings of a list, from
    index [begin] on and for [n] elements, is the total length of the
    strings of that range, the range being clamped to the list: all the
    strings from [begin] on when [n] reaches past the end, and 0 when
    [begin] is past the end.  The total length of the list is taken to fit
    [size_t]. *)
Theorem total_size_of_range (data : list bytes) (begin n : Z) :
  0 <= begin -> 0 <= n ->
  Z.of_nat (length data) <= SIZE_MAX -> total_bytes data <= SIZE_MAX ->
  ComputeTotalSize (len <$> data) begin n
  = total_bytes (take (Z.to_nat n) (drop (Z.to_nat begin) data)).
Proof.
  intros Hb Hn Hlen Htot. unfold ComputeTotalSize.
  rewrite length_fmap.
  destruct (Z.ltb_spec begin (Z.of_nat (length data))) as [Hlt|Hge].
  - rewrite wrap_small by lia.
    rewrite <- fmap_drop, <- fmap_take.
    pose proof (total_bytes_take_drop
                  (Z.to_nat (Z.min n (Z.of_nat (length data) - begin)))
                  (Z.to_nat begin) data) as Hle.
    rewrite foldl_wrap_sum by lia.
    rewrite Z.add_0_l. f_equal.
    destruct (Z.le_ge_cases n (Z.of_nat (length data) - begin)) as [H|H].
    + by rewrite Z.min_l.
    + rewrite Z.min_r by lia.
      rewrite !take_ge; [done | rewrite length_drop; lia | rewrite length_drop; lia].
  - rewrite drop_ge by lia. by rewrite take_nil.
Qed.

Lemma total_size_of_range_witness :
  ComputeTotalSize (len <$> [[x61; x62]; [x63]; [x64; x65; x66]]) 1 5 = 4.
Proof.
  apply (total_size_of_range [[x61; x62]; [x63]; [x64; x65; x66]] 1 5);
    vm_compute; congruence.
Defined.

Lemma RoundUp_spec (n m : Z) :
  0 <= n -> 0 < m -> n + m - 1 <= SIZE_MAX ->
  RoundUp n m mod m = 0 /\ n <= RoundUp n m < n + m.
Proof.
  intros Hn Hm Hfit. unfold RoundUp.
  destruct (Z.leb_spec 0 n) as [_|]; [|lia].
  rewrite (wrap_small (m - 1)) by lia.
  rewrite Z.mul_1_l, (wrap_small (m - 1)) by lia.
  rewrite (wrap_small (n + (m - 1))) by lia.
  assert (Hq : 0 <= (n + (m - 1)) / m * m <= n + (m - 1)).
  { pose proof (Z.mul_div_le (n + (m - 1)) m Hm).
    pose proof (Z.div_pos (n + (m - 1)) m). nia. }
  rewrite wrap_small by lia.
  split; [apply Z.mod_mul; lia|].
  pose proof (Z.mod_pos_bound (n + (m - 1)) m Hm).
  pose proof (Z.div_mod (n + (m - 1)) m). lia.
Qed.

(** X2.  [RoundUp n m], for a positive [m] and as long as [n + m - 1] fits
    [size_t], is the least multiple of [m] that is not below [n]: a
    multiple of [m] in the range from [n] to [n + m - 1]. *)
Theorem round_up_least_multiple (n m : Z) :
  0 <= n -> 0 < m -> n + m - 1 <= SIZE_MAX ->
  RoundUp n m mod m = 0 /\ n <= RoundUp n m < n + m.
Proof. apply RoundUp_spec. Qed.

Lemma round_up_least_multiple_witness :
  RoundUp 5000 4096 mod 4096 = 0 /\ 5000 <= RoundUp 5000 4096 < 5000 + 4096.
Proof. apply round_up_least_multiple; vm_compute; congruence. Defined.

End Sizes.

(** ** More on the fixed-width column *)

Section FixedFurther.
Import ColumnFixedString FixedSpec.







(** X5.  [ColumnFixedString::Append(ColumnRef)]: the rows of a fixed-width
    column of the same element size are added after the rows of the
    receiver, in order.  A fixed-width column of another element size, and
    a column of the other kind, leave the receiver as it is, and the call
    returns normally. *)
Theorem fixed_append_column (c col : t) (l l2 : list bytes) :
  holds c l -> holds col l2 ->
  (string_size_ col = string_size_ c ->
   basic_string.size (data_ c) + basic_string.size (data_ col) <= SIZE_MAX ->
   exists c',
     Append_column (IsFixedString col : Column) c = (Ret tt, c') /\
     holds c' (l ++ l2) /\
     Size c' = Ret (Z.of_nat (length l + length l2))) /\
  (string_size_ col <> string_size_ c ->
   Append_column (IsFixedString col : Column) c = (Ret tt, c)) /\
  (forall v : ColumnString.t,
     Append_column (IsString v : Column) c = (Ret tt, c)).
Proof.
  intros H H2. split; [|split].
  - intros Hss Hfit. unfold Append_column. cbn [As].
    rewrite bind_get. rewrite Hss, Z.eqb_refl.
    eexists. split; [reflexivity|].
    assert (Hh : holds (set_data (basic_string.insert_end
                          (basic_string.chars (data_ col))) c) (l ++ l2)).
    { destruct H as (Hn & Hl & Hch & Hmax).
      destruct H2 as (_ & Hl2 & Hch2 & _).
      unfold holds, basic_string.size in *.
      cbn [set_data data_ string_size_ basic_string.insert_end
           basic_string.chars].
      split; [done|]. split; [|split].
      - apply Forall_app. split; [done|]. by rewrite <- Hss.
      - by rewrite concat_app, Hch, Hch2.
      - rewrite len_app. lia. }
    split; [exact Hh|].
    apply fixed_holds_holds_rows, holds_rows_Size in Hh.
    rewrite Hh. f_equal. rewrite length_app. lia.
  - intros Hss. unfold Append_column. cbn [As]. rewrite bind_get.
    destruct (Z.eqb_spec (string_size_ c) (string_size_ col)); [congruence|].
    reflexivity.
  - reflexivity.
Qed.

Lemma fixed_append_column_witness :
  exists c',
    Append_column (IsFixedString two_row_column : Column) two_row_column
    = (Ret tt, c') /\
    holds c' ([[x61; x62]; [x78; x00]] ++ [[x61; x62]; [x78; x00]]) /\
    Size c' = Ret 4.
Proof.
  assert (H : holds two_row_column [[x61; x62]; [x78; x00]]).
  { unfold holds. cbn. repeat split; try lia.
    - repeat constructor.
    - vm_compute. congruence. }
  apply (fixed_append_column _ _ _ _ H H); [reflexivity|].
  vm_compute. congruence.
Defined.

(** X6.  [ColumnFixedString::LoadBody] from a stream that has at least
    [string_size_ * rows] bytes, whatever the column held before: it
    returns true and consumes exactly that many bytes; the column then has
    [rows] rows, row [i] being the [string_size_] bytes of the stream from
    offset [i * string_size_]; and [SaveBody] writes the consumed bytes
    back. *)
Theorem fixed_load_takes_rows (c : t) (input : bytes) (rows : Z) :
  0 < string_size_ c -> 0 <= rows ->
  string_size_ c * rows <= SIZE_MAX ->
  string_size_ c * rows <= len input ->
  exists c',
    LoadBody input rows c
    = (Ret (true, drop (Z.to_nat (string_size_ c * rows)) input), c') /\
    string_size_ c' = string_size_ c /\
    Size c' = Ret rows /\
    (forall i, 0 <= i < rows ->
       observe c' i
       = Ret (Some (sub (i * string_size_ c) (string_size_ c) input))) /\
    SaveBody [] c' ++ drop (Z.to_nat (string_size_ c * rows)) input = input.
Proof.
  intros Hn Hrows Hmax Hlen.
  unfold LoadBody. rewrite bind_modify, bind_get.
  cbn [set_data data_ string_size_].
  rewrite wrap_small by nia.
  unfold basic_string.size at 1.
  rewrite len_resize by nia.
  unfold WireFormat.ReadBytes.
  destruct (Z.leb_spec (string_size_ c * rows) (len input)) as [_|]; [|lia].
  rewrite bind_modify. cbn [negb].
  eexists. split; [reflexivity|].
  cbn [set_data data_ string_size_ basic_string.chars].
  set (got := take (Z.to_nat (string_size_ c * rows)) input).
  assert (Hgot : len got = string_size_ c * rows).
  { apply len_take. nia. }
  match goal with |- context [Size ?x] => set (c' := x) end.
  assert (Hch : basic_string.chars (data_ c') = got).
  { cbn. apply write_at_0_all. rewrite len_resize by nia. lia. }
  assert (Hr : holds_rows c' rows).
  { unfold holds_rows, basic_string.size. rewrite Hch, Hgot.
    cbn [c' set_data string_size_]. nia. }
  split; [done|]. split; [by apply holds_rows_Size|]. split.
  - intros i Hi. rewrite (holds_rows_observe c' rows i Hr Hi), Hch.
    cbn [c' set_data string_size_].
    do 2 f_equal. unfold sub, got.
    assert (i * string_size_ c + string_size_ c <= string_size_ c * rows)
      by nia.
    assert (0 <= i * string_size_ c) by nia.
    rewrite !take_drop_commute, take_take. do 2 f_equal. lia.
  - unfold SaveBody, WireFormat.WriteBytes. rewrite Hch. cbn [app].
    apply take_drop.
Qed.

Lemma fixed_load_takes_rows_witness :
  exists c',
    LoadBody [x61; x62; x63; x64; x65] 2 (make 2)
    = (Ret (true, [x65]), c') /\
    Size c' = Ret 2 /\
    observe c' 1 = Ret (Some [x63; x64]).
Proof.
  destruct (fixed_load_takes_rows (make 2) [x61; x62; x63; x64; x65] 2)
    as (c' & Hrun & _ & Hsz & Hobs & _).
  - reflexivity.
  - lia.
  - vm_compute. congruence.
  - vm_compute. congruence.
  - exists c'. split; [exact Hrun|]. split; [exact Hsz|].
    apply (Hobs 1). lia.
Defined.

(** X7.  When [ColumnFixedString::LoadBody] returns for a stream that has
    fewer than [string_size_ * rows] bytes, it returns false, and the
    column is not left as it was: the buffer has been resized before the
    read, so the column has [rows] rows, whatever it had before. *)
Theorem fixed_load_short_stream (c : t) (input : bytes) (rows : Z)
    (ok : bool) (rest : bytes) (c' : t) :
  0 < string_size_ c -> 0 <= rows ->
  string_size_ c * rows <= SIZE_MAX ->
  len input < string_size_ c * rows ->
  LoadBody input rows c = (Ret (ok, rest), c') ->
  ok = false /\
  string_size_ c' = string_size_ c /\
  Size c' = Ret rows.
Proof.
  intros Hn Hrows Hmax Hlen.
  unfold LoadBody. rewrite bind_modify, bind_get.
  cbn [set_data data_ string_size_].
  rewrite wrap_small by nia.
  unfold basic_string.size at 1.
  rewrite len_resize by nia.
  unfold WireFormat.ReadBytes.
  destruct (Z.leb_spec (string_size_ c * rows) (len input)) as [|_]; [lia|].
  rewrite bind_modify. cbn [negb]. intros [= <- _ <-].
  split; [done|]. split; [done|].
  apply (holds_rows_Size _ rows).
  unfold holds_rows, basic_string.size.
  cbn [set_data data_ string_size_ basic_string.chars].
  set (buf := basic_string.chars
                (basic_string.resize (string_size_ c * rows) x00 (data_ c))).
  assert (Hbuf : len buf = string_size_ c * rows)
    by (apply len_resize; nia).
  change (len []) with 0 in *.
  rewrite len_write_at by (change (len []) with 0; lia).
  rewrite Hbuf. nia.
Qed.

(** A column of two rows of two bytes is asked to load one row from a
    stream of a single byte: the load fails and one row is left. *)
Lemma fixed_load_short_stream_witness :
  (exists rest, fst (LoadBody [x7a] 1 two_row_column) = Ret (false, rest)) /\
  Size two_row_column = Ret 2 /\
  Size (snd (LoadBody [x7a] 1 two_row_column)) = Ret 1.
Proof.
  split; [by exists [x7a]|]. split; [reflexivity|].
  apply (fixed_load_short_stream two_row_column [x7a] 1 false [x7a]
           (snd (LoadBody [x7a] 1 two_row_column))).
  - reflexivity.
  - lia.
  - vm_compute. discriminate.
  - reflexivity.
  - vm_compute. reflexivity.
Defined.

(** X8.  [ColumnFixedString::Slice(begin, n)], when [n * string_size_] fits
    [size_t], returns a new column that holds the rows from [begin] on, at
    most [n] of them and no more than the source has; it is empty when
    [begin] is past the end.  Row [i] of the slice is row [begin + i] of
    the source. *)
Theorem fixed_slice_elements (c : t) (l : list bytes) (begin n : Z) :
  holds c l -> 0 <= begin -> 0 <= n ->
  n * string_size_ c <= SIZE_MAX ->
  exists r,
    Slice begin n c = Ret r /\
    holds r (take (Z.to_nat n) (drop (Z.to_nat begin) l)) /\
    Size r = Ret (Z.min n (Z.max 0 (Z.of_nat (length l) - begin))) /\
    forall (i : nat) s,
      (i < Z.to_nat n)%nat -> l !! (Z.to_nat begin + i)%nat = Some s ->
      observe r (Z.of_nat i) = Ret (Some s).
Proof.
  intros H Hb Hn Hfit.
  destruct (fixed_slice c l begin n H Hb Hn Hfit) as (r & Hrun & Hr).
  exists r. split; [done|]. split; [done|]. split.
  - pose proof (fixed_holds_holds_rows _ _ Hr) as Hrows.
    apply holds_rows_Size in Hrows. rewrite Hrows. f_equal.
    rewrite length_take, length_drop. lia.
  - intros i s Hi Hs. apply (fixed_holds_observe _ _ _ _ Hr).
    rewrite lookup_take_lt by done. by rewrite lookup_drop.
Qed.

Lemma fixed_slice_elements_witness :
  exists r,
    Slice 1 7 two_row_column = Ret r /\
    holds r [[x78; x00]] /\ Size r = Ret 1.
Proof.
  destruct (fixed_slice_elements two_row_column [[x61; x62]; [x78; x00]] 1 7)
    as (r & Hrun & Hr & Hsz & _).
  - unfold holds. cbn. repeat split; try lia.
    + repeat constructor.
    + vm_compute. congruence.
  - lia.
  - lia.
  - vm_compute. congruence.
  - exists r. split; [exact Hrun|]. split; [exact Hr | exact Hsz].
Defined.

End FixedFurther.

(** ** More on the variable-width column *)

Section StringFurther.
Import ColumnString StringSpec.
Context (mem : caller_memory).


Lemma wf_last_block c v b : wf mem c -> blocks_ c = v ++ [b] -> block_ok b.
Proof.
  intros (Hblocks & _) Hv. rewrite Hv in Hblocks.
  apply Forall_app in Hblocks as [_ Hb]. by inversion Hb.
Qed.

(** Copying a list into the last block, which has room for all of it: the
    block list keeps its length and the last block takes every byte. *)
Lemma for_each_AppendUnsafe_back data : forall c v b l,
  wf mem c -> blocks_ c = v ++ [b] ->
  size b + total_bytes data <= capacity b -> holds mem c l ->
  exists c' b',
    for_each data AppendUnsafe c = (Ret tt, c') /\
    wf mem c' /\ holds mem c' (l ++ data) /\
    blocks_ c' = v ++ [b'] /\ capacity b' = capacity b /\
    size b' = size b + total_bytes data /\
    append_data_ c' = append_data_ c /\
    value_size_estimation_ c' = value_size_estimation_ c /\
    next_block_size_ c' = next_block_size_ c.
Proof.
  induction data as [|s data IH]; intros c v b l Hwf Hb Hroom Hl.
  - exists c, b. rewrite app_nil_r. cbn [total_bytes foldr].
    split; [reflexivity|]. do 4 (split; [done|]). split; [lia | done].
  - rewrite total_bytes_cons in Hroom |- *.
    pose proof (total_bytes_nonneg data). pose proof (len_nonneg s).
    destruct (AppendUnsafe_spec mem c v b s Hwf Hb)
      as (c1 & Hrun & Hwf1 & _ & Hholds & Hb1 & Ha1 & He1 & Hn1); [lia|].
    destruct (IH c1 v (block_after b s) (l ++ [s]) Hwf1 Hb1)
      as (c' & b' & Hrun' & Hwf' & H' & Hb' & Hcap' & Hsz' & Ha' & He' & Hn');
      [simpl; lia | by apply Hholds |].
    exists c', b'. split; [|split; [done|split]].
    + cbn [for_each]. unfold bind. by rewrite Hrun.
    + by rewrite <- app_assoc in H'.
    + split; [done|]. split; [done|]. split; [simpl in Hsz'; lia|].
      by rewrite Ha', He', Hn'.
Qed.

(** A copy append that finds the room in the last block is the unchecked
    append. *)
Lemma Append_in_place c v b s :
  wf mem c -> blocks_ c = v ++ [b] -> size b + len s <= capacity b ->
  Append s c = AppendUnsafe s c.
Proof.
  intros Hwf Hv Hroom. rewrite Append_unfold. f_equal.
  unfold with_room. rewrite Hv, last_snoc.
  rewrite GetAvailable_ok by (by apply (wf_last_block c v)).
  destruct (Z.ltb_spec (capacity b - size b) (len s)); [lia|done].
Qed.

Lemma for_each_Append_in_place data : forall c v b l,
  wf mem c -> blocks_ c = v ++ [b] ->
  size b + total_bytes data <= capacity b -> holds mem c l ->
  exists c' b',
    for_each data Append c = (Ret tt, c') /\
    wf mem c' /\ holds mem c' (l ++ data) /\
    blocks_ c' = v ++ [b'] /\ capacity b' = capacity b /\
    size b' = size b + total_bytes data /\
    next_block_size_ c' = next_block_size_ c.
Proof.
  induction data as [|s data IH]; intros c v b l Hwf Hb Hroom Hl.
  - exists c, b. rewrite app_nil_r. cbn [total_bytes foldr].
    split; [reflexivity|]. do 4 (split; [done|]). split; [lia | done].
  - rewrite total_bytes_cons in Hroom |- *.
    pose proof (total_bytes_nonneg data). pose proof (len_nonneg s).
    destruct (AppendUnsafe_spec mem c v b s Hwf Hb)
      as (c1 & Hrun & Hwf1 & _ & Hholds & Hb1 & Ha1 & He1 & Hn1); [lia|].
    destruct (IH c1 v (block_after b s) (l ++ [s]) Hwf1 Hb1)
      as (c' & b' & Hrun' & Hwf' & H' & Hb' & Hcap' & Hsz' & Hn');
      [simpl; lia | by apply Hholds |].
    exists c', b'. split; [|split; [done|split]].
    + cbn [for_each]. unfold bind.
      rewrite (Append_in_place c v b s) by (done || lia). by rewrite Hrun.
    + by rewrite <- app_assoc in H'.
    + split; [done|]. split; [done|]. split; [simpl in Hsz'; lia|].
      by rewrite Hn'.
Qed.

(** The loop over the indices of a column reads its elements in order. *)
Lemma for_range_items {St} (col : t) (l2 : list bytes)
    (body : bytes -> M St unit) (k : nat) : forall (from : nat) (st : St),
  holds mem col l2 -> (from + k <= length l2)%nat ->
  for_range (Z.of_nat from) k
    (fun i => bind (lift (item_bytes mem col i)) body) st
  = for_each (take k (drop from l2)) body st.
Proof.
  induction k as [|k IH]; intros from st Hl Hk.
  - by rewrite take_0.
  - destruct (lookup_lt_is_Some_2 l2 from) as [s Hs]; [lia|].
    rewrite (drop_S _ _ _ Hs). cbn [take for_range for_each].
    unfold bind at 1. unfold bind at 1. unfold lift.
    rewrite (holds_item_bytes mem col l2 from s Hl Hs).
    unfold bind at 2.
    destruct (body s st) as [[[]| |] st1]; try done.
    replace (Z.of_nat from + 1) with (Z.of_nat (S from)) by lia.
    apply IH; [done | lia].
Qed.

(** [Append(ColumnRef)] with a variable-width column. *)
Lemma Append_column_spec (c col : t) (l l2 : list bytes) :
  wf mem c -> holds mem c l -> holds mem col l2 ->
  total_bytes l2 <= SIZE_MAX -> Z.of_nat (length l2) <= SIZE_MAX ->
  exists c',
    Append_column mem (IsString col : Column) c = (Ret tt, c') /\
    wf mem c' /\ holds mem c' (l ++ l2) /\
    (length (blocks_ c) <= length (blocks_ c') <= S (length (blocks_ c)))%nat /\
    append_data_ c' = append_data_ c /\
    value_size_estimation_ c' = value_size_estimation_ c.
Proof.
  intros Hwf Hl Hl2 Htot Hlen. pose proof Hwf as (Hblocks & Hitems & Hnext).
  pose proof (total_bytes_nonneg l2) as H0.
  unfold Append_column. cbn [As].
  rewrite (holds_sv_len mem col l2 Hl2), ComputeTotalSize_all by done.
  rewrite bind_get.
  rewrite (holds_length mem col l2 Hl2).
  destruct (match list.last (blocks_ c) with None => _ | Some _ => _ end) eqn:E.
  - unfold bind at 1. unfold bind at 1. unfold modify at 1 2.
    set (b := Block_make (Z.max (next_block_size_ c) (total_bytes l2))).
    set (c1 := set_next_block_size _ _).
    assert (Hb : block_ok b) by (apply block_make_ok; lia).
    assert (Hext : extends c c1) by apply (extends_emplace_back c b).
    assert (Hwf1 : wf mem c1).
    { apply (wf_extends mem c c1); try done.
      - simpl. apply Forall_app. split; [done|]. by apply Forall_singleton.
      - apply EstimateNextBlockSize_range. }
    pose proof (for_range_items col l2 (fun s => AppendUnsafe s) (length l2) 0%nat c1 Hl2)
      as Hloop.
    change (Z.of_nat 0) with 0 in Hloop.
    rewrite drop_0, firstn_all in Hloop. rewrite Hloop by lia. clear Hloop.
    destruct (for_each_AppendUnsafe_back l2 c1 (blocks_ c) b l Hwf1 eq_refl)
      as (c' & b' & Hrun & Hwf' & H' & Hb' & _ & _ & Ha' & He' & _).
    { simpl. lia. }
    { by apply (holds_extends mem c c1). }
    exists c'. split; [done|]. split; [done|]. split; [done|].
    split; [|done]. rewrite Hb', length_app. simpl. lia.
  - rewrite bind_ret.
    destruct (list.last (blocks_ c)) as [b|] eqn:Hlast; [|done].
    apply last_Some in Hlast as [v Hv].
    rewrite GetAvailable_ok in E by (by apply (wf_last_block c v)).
    pose proof (for_range_items col l2 (fun s => AppendUnsafe s) (length l2) 0%nat c Hl2)
      as Hloop.
    change (Z.of_nat 0) with 0 in Hloop.
    rewrite drop_0, firstn_all in Hloop. rewrite Hloop by lia. clear Hloop.
    destruct (for_each_AppendUnsafe_back l2 c v b l Hwf Hv)
      as (c' & b' & Hrun & Hwf' & H' & Hb' & _ & _ & Ha' & He' & _);
      [lia | done |].
    exists c'. split; [done|]. split; [done|]. split; [done|].
    split; [|done]. rewrite Hb', Hv, !length_app. simpl. lia.
Qed.

(** [Reserve] touches neither the views nor the owned strings.  Above the
    limit of [items_] it throws before anything is done; otherwise it adds
    at most one empty block. *)
Lemma Reserve_spec new_cap c :
  wf mem c ->
  exists o c',
    Reserve new_cap c = (o, c') /\ wf mem c' /\ extends c c' /\
    items_ c' = items_ c /\ append_data_ c' = append_data_ c /\
    value_size_estimation_ c' = value_size_estimation_ c /\
    ((o = Throw length_error /\
      vector_max_size sizeof_string_view < new_cap /\ c' = c) \/
     (o = Ret tt /\ new_cap <= vector_max_size sizeof_string_view /\
      (blocks_ c' = blocks_ c \/
       blocks_ c' = blocks_ c
                    ++ [Block_make
                          (wrap (new_cap * value_size_estimation_ c))]))).
Proof.
  intros Hwf. pose proof (wf_Reserve mem new_cap c Hwf) as Hwf'.
  unfold Reserve, vector_reserve in Hwf' |- *.
  unfold bind at 1 in Hwf'. unfold bind at 1. revert Hwf'.
  destruct (Z.ltb_spec (vector_max_size sizeof_string_view) new_cap)
    as [Hbig|Hok].
  - cbn [throw snd]. intros _. exists (Throw length_error), c.
    split; [reflexivity|]. split; [done|]. split; [apply extends_refl|].
    do 3 (split; [done|]). by left.
  - cbn [ret]. rewrite bind_get.
    destruct (match list.last (blocks_ c) with None => _ | Some _ => _ end)
      eqn:E.
    + unfold modify. cbn [snd]. intros Hwf'. eexists _, _.
      split; [reflexivity|].
      split; [done|]. split; [apply extends_emplace_back|].
      do 3 (split; [done|]). right. split; [done|]. split; [done|]. by right.
    + destruct (list.last (blocks_ c)); [|done].
      unfold modify. cbn [snd]. intros Hwf'. eexists _, _.
      split; [reflexivity|].
      split; [done|]. split; [by apply extends_same_storage|].
      do 3 (split; [done|]). right. split; [done|]. split; [done|]. by left.
Qed.



(** The loop of the moving constructor: every string goes to
    [append_data_] as it is, with a view over the whole of it. *)
Lemma for_each_emplace_owned data : forall c,
  for_each data emplace_owned c =
    (Ret tt,
     {| items_ := items_ c
                  ++ imap (fun k s =>
                             {| sv_data := in_append_data
                                             (length (append_data_ c) + k);
                                sv_len := len s |}) data;
        blocks_ := blocks_ c;
        append_data_ := append_data_ c ++ data;
        value_size_estimation_ := value_size_estimation_ c;
        next_block_size_ := next_block_size_ c |}).
Proof.
  induction data as [|s data IH]; intros c.
  - cbn. rewrite !app_nil_r. by destruct c.
  - cbn [for_each]. unfold bind at 1.
    unfold emplace_owned at 1. rewrite bind_modify, bind_get.
    unfold modify at 1. rewrite IH. f_equal.
    cbn [set_items set_append_data items_ blocks_ append_data_
         value_size_estimation_ next_block_size_ emplace_back].
    unfold emplace_back.
    rewrite imap_cons, <- !app_assoc. cbn [app].
    rewrite !length_app. cbn [length].
    f_equal. f_equal. f_equal.
    + do 2 f_equal. lia.
    + apply imap_ext. intros k x _. cbn. do 2 f_equal. lia.
Qed.

End StringFurther.

Section StringFurtherResults.
Import ColumnString StringSpec.

(** X9.  [At(i)] is bounds-checked in both kinds.  On a column that holds
    the sequence [l], it returns a view of the element [i] of [l] when [i]
    is below the length of [l], and throws [out_of_range] otherwise.  For
    the fixed-width column this is for the indices whose byte offset
    [i * string_size_] fits [size_t]. *)
Theorem at_checks_bounds :
  (forall (c : ColumnFixedString.t) (l : list bytes) (i : Z),
     FixedSpec.holds c l -> 0 <= i ->
     i * ColumnFixedString.string_size_ c <= SIZE_MAX ->
     FixedSpec.observe c i =
       match l !! Z.to_nat i with
       | Some s => Ret (Some s)
       | None => Throw out_of_range
       end) /\
  (forall (mem : caller_memory) (c : t) (l : list bytes) (i : Z),
     holds mem c l -> 0 <= i ->
     observe mem c i =
       match l !! Z.to_nat i with
       | Some s => Ret (Some s)
       | None => Throw out_of_range
       end).
Proof.
  split.
  - intros c l i H Hi Hfit.
    destruct (l !! Z.to_nat i) as [s|] eqn:Hs.
    + rewrite <- (Z2Nat.id i) by done.
      by apply (fixed_holds_observe c l).
    + apply lookup_ge_None in Hs.
      apply (fixed_holds_observe_past c l); [done | lia | done].
  - intros mem c l i H Hi. rewrite (string_observe_all mem c l i H).
    destruct (Z.ltb_spec i (Z.of_nat (length l))) as [|Hge]; [done|].
    rewrite (proj2 (lookup_ge_None l (Z.to_nat i))); [done | lia].
Qed.

Lemma at_checks_bounds_witness :
  (FixedSpec.observe FixedSpec.two_row_column 1 = Ret (Some [x78; x00]) /\
   FixedSpec.observe FixedSpec.two_row_column 2 = Throw out_of_range) /\
  (observe [] full_block_column 0 = Ret (Some [x61; x62]) /\
   observe [] full_block_column 1 = Throw out_of_range).
Proof.
  assert (H : FixedSpec.holds FixedSpec.two_row_column
                [[x61; x62]; [x78; x00]]).
  { unfold FixedSpec.holds. cbn. repeat split; try lia.
    - repeat constructor.
    - vm_compute. congruence. }
  assert (H' : holds [] full_block_column [[x61; x62]]) by reflexivity.
  destruct at_checks_bounds as [HF HS].
  split; split.
  - apply (HF _ _ 1 H); vm_compute; congruence.
  - apply (HF _ _ 2 H); vm_compute; congruence.
  - apply (HS _ _ _ 0 H'). lia.
  - apply (HS _ _ _ 1 H'). lia.
Defined.



(** X11.  Whenever [ColumnString::LoadBody] returns true, on any stream and
    whatever the column held before: the column has [rows] elements and
    satisfies the invariant; its owned buffers, its size estimate and its
    planned block size are as before; and the bytes consumed from the
    stream are exactly the bytes [SaveBody] writes for the loaded
    column. *)
Theorem load_then_save_gives_back (mem : caller_memory) (input : bytes)
    (rows : Z) (c : t) (rest : bytes) (c' : t) :
  0 <= rows -> wf mem c ->
  LoadBody input rows c = (Ret (true, rest), c') ->
  wf mem c' /\ Size c' = rows /\
  append_data_ c' = append_data_ c /\
  value_size_estimation_ c' = value_size_estimation_ c /\
  next_block_size_ c' = next_block_size_ c /\
  exists out, SaveBody mem [] c' = Ret out /\ input = out ++ rest.
Proof.
  intros Hrows Hwf Hrun.
  destruct (LoadBody_any mem input rows c rest c' Hrows Hwf Hrun)
    as (Hwf' & l & Hlen & Hl & Hin & Hsave).
  split; [done|]. split; [by rewrite (holds_Size mem c' l Hl)|].
  assert (Hkeep : append_data_ c' = append_data_ c /\
                  value_size_estimation_ c' = value_size_estimation_ c /\
                  next_block_size_ c' = next_block_size_ c).
  { revert Hrun. unfold LoadBody. destruct (rows =? 0).
    - intros [= _ <-]. done.
    - destruct (bind _ _ {| new_items := []; new_blocks := [] |})
        as [[[[] rest']| |] st]; intros Heq; inversion Heq; done. }
  destruct Hkeep as (? & ? & ?). do 3 (split; [done|]).
  by exists (wire_rows l).
Qed.

Lemma load_then_save_gives_back_witness :
  Size (snd (LoadBody [x01; x00; x00; x00; x00; x00; x00; x00; x61; x07] 1
               owning_column)) = 1 /\
  exists out,
    SaveBody [] []
      (snd (LoadBody [x01; x00; x00; x00; x00; x00; x00; x00; x61; x07] 1
              owning_column)) = Ret out /\
    [x01; x00; x00; x00; x00; x00; x00; x00; x61; x07] = out ++ [x07].
Proof.
  destruct (load_then_save_gives_back []
              [x01; x00; x00; x00; x00; x00; x00; x00; x61; x07] 1
              owning_column [x07]
              (snd (LoadBody [x01; x00; x00; x00; x00; x00; x00; x00; x61; x07]
                      1 owning_column)))
    as (_ & Hsz & _ & _ & _ & Hout).
  - lia.
  - split; [constructor|]. split; [|vm_compute; split; congruence].
    repeat constructor; try (vm_compute; congruence).
    exists [x61]. split; [reflexivity | vm_compute; congruence].
  - vm_compute. reflexivity.
  - split; [exact Hsz | exact Hout].
Defined.

(** X12.  [ColumnString::Slice(begin, n)], for every [begin] and [n],
    returns a new column that satisfies the invariant and holds copies of
    the elements from [begin] on, at most [n] of them and no more than the
    source has; it is empty when [begin] is past the end.  Element [i] of
    the slice is element [begin + i] of the source. *)
Theorem string_slice_elements (mem : caller_memory) (c : t)
    (l : list bytes) (begin n : Z) :
  wf mem c -> holds mem c l -> 0 <= value_size_estimation_ c ->
  Z.of_nat (length l) <= SIZE_MAX -> 0 <= begin -> 0 <= n ->
  exists r,
    Slice mem begin n c = Ret r /\ wf mem r /\
    holds mem r (take (Z.to_nat n) (drop (Z.to_nat begin) l)) /\
    Size r = Z.min n (Z.max 0 (Size c - begin)) /\
    forall (i : nat) s,
      (i < Z.to_nat n)%nat -> l !! (Z.to_nat begin + i)%nat = Some s ->
      observe mem r (Z.of_nat i) = Ret (Some s).
Proof.
  intros Hwf Hl He Hlen Hb Hn.
  destruct (string_slice mem c l begin n Hwf Hl He Hlen Hb Hn)
    as (r & Hrun & Hwfr & Hr).
  exists r. split; [done|]. split; [done|]. split; [done|].
  split.
  - rewrite (holds_Size mem r _ Hr), (holds_Size mem c l Hl).
    rewrite length_take, length_drop. lia.
  - intros i s Hi Hs. apply (holds_observe mem r _ i s Hr).
    rewrite lookup_take_lt by done. by rewrite lookup_drop.
Qed.

Lemma string_slice_elements_witness :
  exists r,
    Slice [] 0 7 full_block_column = Ret r /\ wf [] r /\
    holds [] r [[x61; x62]] /\ Size r = 1.
Proof.
  destruct (string_slice_elements [] full_block_column [[x61; x62]] 0 7)
    as (r & Hrun & Hwf & Hr & Hsz & _).
  - apply wf_full_block_column.
  - reflexivity.
  - vm_compute. congruence.
  - vm_compute. congruence.
  - lia.
  - lia.
  - exists r. split; [exact Hrun|]. split; [exact Hwf|].
    split; [exact Hr | exact Hsz].
Defined.



(** X14.  [ColumnString::Reserve] changes no element, whatever its outcome:
    [Size()] and the outcome of [At] at every index are as before, the
    owned buffers and the size estimate are untouched, and the invariant
    holds.  When it returns, it has left the blocks as they are or added
    one empty block of [new_cap * value_size_estimation_] bytes.  For a
    [new_cap] above the limit of [items_] it throws [std::length_error]
    and the column is exactly as it was. *)
Theorem reserve_keeps_elements (mem : caller_memory) (c : t)
    (l : list bytes) (new_cap : Z) :
  wf mem c -> holds mem c l ->
  (forall o c',
     Reserve new_cap c = (o, c') ->
     wf mem c' /\ holds mem c' l /\ Size c' = Size c /\
     (forall i, observe mem c' i = observe mem c i) /\
     append_data_ c' = append_data_ c /\
     value_size_estimation_ c' = value_size_estimation_ c /\
     (o = Ret tt ->
      blocks_ c' = blocks_ c \/
      exists b, blocks_ c' = blocks_ c ++ [b] /\ size b = 0 /\
                capacity b = wrap (new_cap * value_size_estimation_ c))) /\
  (vector_max_size sizeof_string_view < new_cap ->
   Reserve new_cap c = (Throw length_error, c)).
Proof.
  intros Hwf Hl.
  destruct (Reserve_spec mem new_cap c Hwf)
    as (o & c' & Hrun & Hwf' & Hext & Hitems & Ha & He & Hcases).
  assert (Hl' : holds mem c' l) by (by apply (holds_extends mem c c')).
  split.
  - intros o0 c0 Hrun0. rewrite Hrun in Hrun0. injection Hrun0 as <- <-.
    split; [done|]. split; [done|].
    split; [unfold Size; by rewrite Hitems|].
    split; [|split; [done|split; [done|]]].
    + intros i. by rewrite (string_observe_all mem c' l i Hl'),
                           (string_observe_all mem c l i Hl).
    + intros ->. destruct Hcases as [(? & _)|(_ & _ & Hblocks)]; [done|].
      destruct Hblocks as [?|Hnew]; [by left|]. right. by eexists.
  - intros Hbig. destruct Hcases as [(-> & _ & ->)|(_ & ? & _)]; [done|lia].
Qed.

(** Asked to reserve for 10 elements, the column of the full block gets a
    second block of [10 * 2] bytes; asked for [2^60] elements, it throws.
    The element is there in both cases. *)
Lemma reserve_keeps_elements_witness :
  (holds [] (snd (Reserve 10 full_block_column)) [[x61; x62]] /\
   exists b,
     blocks_ (snd (Reserve 10 full_block_column))
     = blocks_ full_block_column ++ [b] /\ capacity b = 20) /\
  Reserve (2 ^ 60) full_block_column = (Throw length_error, full_block_column).
Proof.
  destruct (reserve_keeps_elements [] full_block_column [[x61; x62]] 10
              (wf_full_block_column []) eq_refl) as [Hany _].
  destruct (reserve_keeps_elements [] full_block_column [[x61; x62]] (2 ^ 60)
              (wf_full_block_column []) eq_refl) as [_ Hbig].
  split; [split|].
  - apply (Hany (fst (Reserve 10 full_block_column))
             (snd (Reserve 10 full_block_column))).
    apply surjective_pairing.
  - eexists. split; reflexivity.
  - apply Hbig. vm_compute. reflexivity.
Defined.



(** X16.  The constructor that takes ownership of a list of strings copies
    no byte: it allocates no block, its owned buffers are the strings of
    the list in order, and the view at each index covers the whole of the
    owned buffer at that index. *)
Theorem move_constructor_copies_nothing (data : list bytes) (c : t) :
  make_move data = Ret c ->
  blocks_ c = [] /\ append_data_ c = data /\
  items_ c = imap (fun k s => {| sv_data := in_append_data k;
                                 sv_len := len s |}) data /\
  next_block_size_ c = DEFAULT_BLOCK_SIZE.
Proof.
  unfold make_move, make_default.
  rewrite make_fresh by (unfold DEFAULT_ESTIMATION; lia).
  unfold construct. unfold bind at 1. rewrite for_each_emplace_owned.
  rewrite bind_get. unfold bind, lift, modify.
  destruct (ComputeValueSizeEstimation _ _); try discriminate.
  intros [= <-]. cbn. done.
Qed.

Lemma move_constructor_copies_nothing_witness :
  blocks_ owning_column = [] /\ append_data_ owning_column = [[x61]] /\
  items_ owning_column = [{| sv_data := in_append_data 0; sv_len := 1 |}] /\
  next_block_size_ owning_column = 4096.
Proof.
  apply (move_constructor_copies_nothing [[x61]] owning_column).
  vm_compute. reflexivity.
Defined.

(** X17.  The constructor that copies a list of strings, of fewer than
    [2^53] bytes in total, leaves exactly one block, whose capacity and
    used size both are the total length of the list, and no owned buffer;
    the column holds the strings of the list in order. *)
Theorem copy_constructor_fills_one_block (mem : caller_memory)
    (data : list bytes) :
  total_bytes data < 2 ^ 53 -> Z.of_nat (length data) <= SIZE_MAX ->
  exists c b,
    make_copy data = Ret c /\ holds mem c data /\
    blocks_ c = [b] /\
    capacity b = total_bytes data /\ size b = total_bytes data /\
    append_data_ c = [] /\
    next_block_size_ c = DEFAULT_BLOCK_SIZE.
Proof.
  intros Ht Hn. pose proof (total_bytes_nonneg data) as H0.
  assert (Hmax : total_bytes data <= SIZE_MAX).
  { unfold SIZE_MAX. change (2 ^ 64) with 18446744073709551616.
    change (2 ^ 53) with 9007199254740992 in Ht. lia. }
  unfold make_copy, make_default.
  rewrite make_fresh by (unfold DEFAULT_ESTIMATION; lia).
  rewrite ComputeTotalSize_all by done. unfold construct.
  rewrite bind_modify.
  set (c1 := set_blocks _ _).
  assert (Hwf1 : wf mem c1).
  { split; [|split; [constructor|cbn; size_arith]]. cbn.
    apply Forall_singleton, block_make_ok. lia. }
  destruct (for_each_AppendUnsafe_back mem data c1 []
              (Block_make (total_bytes data)) [] Hwf1 eq_refl)
    as (c2 & b & Hrun & Hwf2 & H2 & Hb2 & Hcap & Hsz & Ha2 & _ & Hn2);
    [simpl; lia | done |].
  unfold bind at 1. rewrite Hrun.
  rewrite ComputeValueSizeEstimation_spec by lia.
  unfold bind, lift, modify.
  eexists _, b. split; [reflexivity|].
  split; [by apply (holds_ext mem c2)|].
  cbn [set_value_size_estimation blocks_ append_data_ next_block_size_].
  split; [done|]. split; [done|]. split; [simpl in Hsz; lia|].
  by rewrite Ha2, Hn2.
Qed.

Lemma copy_constructor_fills_one_block_witness :
  exists c b,
    make_copy [[x61; x62]; [x63]] = Ret c /\
    holds [] c [[x61; x62]; [x63]] /\
    blocks_ c = [b] /\ capacity b = 3 /\ size b = 3.
Proof.
  destruct (copy_constructor_fills_one_block [] [[x61; x62]; [x63]])
    as (c & b & Hrun & Hl & Hb & Hcap & Hsz & _);
    [reflexivity | vm_compute; congruence |].
  exists c, b. split; [exact Hrun|]. split; [exact Hl|].
  split; [exact Hb|]. split; [exact Hcap | exact Hsz].
Defined.

(** What the pre-sized constructor does, case by case. *)
Lemma make_sized_cases (element_count estimate : Z) :
  make_sized element_count estimate =
    if estimate <? 0 then Throw ValidationError
    else if vector_max_size sizeof_string_view <? element_count
         then Throw length_error
         else Ret (set_blocks
                     (emplace_back
                        (Block_make
                           (Z.max DEFAULT_BLOCK_SIZE
                              (RoundUp (wrap (element_count * estimate))
                                       DEFAULT_BLOCK_SIZE))))
                     (fresh estimate)).
Proof.
  unfold make_sized, make, construct, vector_reserve.
  destruct (estimate <? 0); [reflexivity|]. cbn [ret].
  unfold bind at 1.
  by destruct (vector_max_size sizeof_string_view <? element_count).
Qed.

(** X18.  The pre-sized constructor throws [ValidationError] for a negative
    estimate and [std::length_error] for an element count above the limit
    of [items_].  When it returns, and [element_count * estimate + 4095]
    fits [size_t], the column is empty and has one empty block whose
    capacity is a multiple of 4096, at least 4096 and at least
    [element_count * estimate], and less than one block size above that;
    copy appends of strings whose total length is at most
    [element_count * estimate] then all go into that block: no further
    block is allocated. *)
Theorem presized_column_needs_no_allocation (mem : caller_memory)
    (element_count estimate : Z) (data : list bytes) :
  0 <= element_count ->
  (estimate < 0 ->
   make_sized element_count estimate = Throw ValidationError) /\
  (0 <= estimate -> vector_max_size sizeof_string_view < element_count ->
   make_sized element_count estimate = Throw length_error) /\
  (forall c,
     make_sized element_count estimate = Ret c ->
     element_count * estimate + 4095 <= SIZE_MAX ->
     total_bytes data <= element_count * estimate ->
     exists b c' b',
       Size c = 0 /\ blocks_ c = [b] /\ size b = 0 /\
       capacity b mod DEFAULT_BLOCK_SIZE = 0 /\
       DEFAULT_BLOCK_SIZE <= capacity b /\
       element_count * estimate <= capacity b
         < Z.max 1 (element_count * estimate) + DEFAULT_BLOCK_SIZE /\
       for_each data Append c = (Ret tt, c') /\
       holds mem c' data /\
       blocks_ c' = [b'] /\ capacity b' = capacity b /\
       size b' = total_bytes data).
Proof.
  intros Hn. rewrite make_sized_cases. split; [|split].
  - intros He. by destruct (Z.ltb_spec estimate 0); [|lia].
  - intros He Hbig. destruct (Z.ltb_spec estimate 0); [lia|].
    by destruct (Z.ltb_spec (vector_max_size sizeof_string_view)
                   element_count); [|lia].
  - intros c Hmk Hfit Htot.
    destruct (Z.ltb_spec estimate 0) as [|He]; [done|].
    destruct (vector_max_size sizeof_string_view <? element_count); [done|].
    injection Hmk as <-.
    assert (Hprod : 0 <= element_count * estimate) by nia.
    destruct (RoundUp_spec (element_count * estimate) 4096)
      as (Hmod & Hlo & Hhi); [lia | lia | lia |].
    rewrite (wrap_small (element_count * estimate)) by lia.
    set (R := RoundUp (element_count * estimate) DEFAULT_BLOCK_SIZE) in *.
    change (RoundUp (element_count * estimate) 4096) with R in *.
    set (cap := Z.max DEFAULT_BLOCK_SIZE R).
    assert (Hcap : cap mod 4096 = 0 /\ 4096 <= cap /\
                   element_count * estimate <= cap
                   < Z.max 1 (element_count * estimate) + 4096).
    { subst cap. unfold DEFAULT_BLOCK_SIZE.
      destruct (Z.max_spec 4096 R) as [[? ->]|[? ->]]; lia. }
    set (c := set_blocks (emplace_back (Block_make cap)) (fresh estimate)).
    assert (Hwf : wf mem c).
    { split; [|split; [constructor|cbn; size_arith]]. cbn.
      apply Forall_singleton, block_make_ok. size_arith. }
    destruct (for_each_Append_in_place mem data c [] (Block_make cap) []
                Hwf eq_refl)
      as (c' & b' & Hrun & Hwf' & H' & Hb' & Hcap' & Hsz' & _);
      [cbn; lia | done |].
    exists (Block_make cap), c', b'.
    split; [done|]. split; [done|]. split; [done|].
    unfold DEFAULT_BLOCK_SIZE. cbn [Block_make capacity].
    split; [lia|]. split; [lia|]. split; [lia|].
    split; [done|]. split; [done|]. split; [done|]. split; [done|].
    cbn in Hsz'. lia.
Qed.

(** For 1000 elements of 5 bytes the block has 8192 bytes, and two strings
    go into it.  For [2^60] elements the constructor throws
    [std::length_error], and for the estimate -1 [ValidationError]. *)
Lemma presized_column_needs_no_allocation_witness :
  (exists c b c' b',
     make_sized 1000 5 = Ret c /\ blocks_ c = [b] /\ capacity b = 8192 /\
     for_each [[x61; x62]; [x63]] Append c = (Ret tt, c') /\
     holds [] c' [[x61; x62]; [x63]] /\
     blocks_ c' = [b'] /\ capacity b' = 8192 /\ size b' = 3) /\
  make_sized (2 ^ 60) 0 = Throw length_error /\
  make_sized 1000 (-1) = Throw ValidationError.
Proof.
  split; [|split].
  - destruct (presized_column_needs_no_allocation [] 1000 5
                [[x61; x62]; [x63]]) as (_ & _ & Hret); [lia|].
    destruct (Hret (set_blocks (emplace_back (Block_make 8192)) (fresh 5)))
      as (b & c' & b' & _ & Hb & _ & _ & _ & _ & Hrun & Hl & Hb' & Hcap'
          & Hsz');
      [reflexivity | vm_compute; discriminate | vm_compute; discriminate |].
    exists (set_blocks (emplace_back (Block_make 8192)) (fresh 5)), b, c', b'.
    split; [reflexivity|]. split; [exact Hb|].
    injection Hb as <-.
    split; [reflexivity|].
    split; [exact Hrun|]. split; [exact Hl|]. split; [exact Hb'|].
    split; [exact Hcap' | exact Hsz'].
  - destruct (presized_column_needs_no_allocation [] (2 ^ 60) 0 [])
      as (_ & Hbig & _); [lia|].
    apply Hbig; [lia | vm_compute; reflexivity].
  - destruct (presized_column_needs_no_allocation [] 1000 (-1) [])
      as (Hneg & _); [lia|].
    apply Hneg. lia.
Defined.

(** X19.  Splitting a variable-width column at any index with two calls of
    [Slice] and appending the second part to the first with
    [Append(ColumnRef)] gives a column with the same [Size()] and the same
    outcome of [At] at every index as the column that was split. *)
Theorem slice_and_append_rejoin (mem : caller_memory) (c : t)
    (l : list bytes) (k : Z) :
  wf mem c -> holds mem c l -> 0 <= value_size_estimation_ c ->
  Z.of_nat (length l) <= SIZE_MAX -> total_bytes l <= SIZE_MAX -> 0 <= k ->
  exists head tail c',
    Slice mem 0 k c = Ret head /\
    Slice mem k SIZE_MAX c = Ret tail /\
    Append_column mem (IsString tail : Column) head = (Ret tt, c') /\
    holds mem c' l /\ Size c' = Size c /\
    forall i, observe mem c' i = observe mem c i.
Proof.
  intros Hwf Hl He Hlen Htot Hk.
  destruct (string_slice mem c l 0 k Hwf Hl He Hlen) as (hd & Hhd & Hwfh & Hh);
    [lia | done |].
  destruct (string_slice mem c l k SIZE_MAX Hwf Hl He Hlen)
    as (tl & Htl & Hwft & Ht); [done | unfold SIZE_MAX; lia |].
  change (Z.to_nat 0) with 0%nat in Hh. rewrite drop_0 in Hh.
  rewrite take_ge in Ht by (rewrite length_drop; lia).
  pose proof (total_bytes_take_drop (length l) (Z.to_nat k) l) as Hle.
  rewrite take_ge in Hle by (rewrite length_drop; lia).
  destruct (Append_column_spec mem hd tl _ _ Hwfh Hh Ht)
    as (c' & Hrun & Hwf' & H' & _); [lia | rewrite length_drop; lia |].
  rewrite take_drop in H'.
  exists hd, tl, c'. do 3 (split; [done|]). split; [done|].
  split; [by rewrite (holds_Size mem c' l H'), (holds_Size mem c l Hl)|].
  intros i. by rewrite (string_observe_all mem c' l i H'),
                       (string_observe_all mem c l i Hl).
Qed.

Lemma slice_and_append_rejoin_witness :
  exists head tail c',
    Slice [] 0 1 full_block_column = Ret head /\
    Slice [] 1 SIZE_MAX full_block_column = Ret tail /\
    Append_column [] (IsString tail : Column) head = (Ret tt, c') /\
    holds [] c' [[x61; x62]].
Proof.
  destruct (slice_and_append_rejoin [] full_block_column [[x61; x62]] 1)
    as (hd & tl & c' & Hhd & Htl & Hrun & Hl & _).
  - apply wf_full_block_column.
  - reflexivity.
  - vm_compute. congruence.
  - vm_compute. congruence.
  - vm_compute. congruence.
  - lia.
  - exists hd, tl, c'. split; [exact Hhd|]. split; [exact Htl|].
    split; [exact Hrun | exact Hl].
Defined.

(** X20.  [Clear] empties a column of either kind: [Size()] is 0 and [At]
    throws [out_of_range] at every index.  The fixed-width column keeps
    its element size; the variable-width column drops its views, its
    blocks and its owned buffers, keeps its size estimate and its planned
    block size, and satisfies the invariant. *)
Theorem clear_empties_column :
  (forall c : ColumnFixedString.t,
     0 < ColumnFixedString.string_size_ c ->
     exists c',
       ColumnFixedString.Clear c = (Ret tt, c') /\
       ColumnFixedString.string_size_ c' = ColumnFixedString.string_size_ c /\
       ColumnFixedString.Size c' = Ret 0 /\
       FixedSpec.holds c' [] /\
       forall i, FixedSpec.observe c' i = Throw out_of_range) /\
  (forall (mem : caller_memory) (c : t),
     wf mem c ->
     exists c',
       Clear c = (Ret tt, c') /\ wf mem c' /\
       Size c' = 0 /\ blocks_ c' = [] /\ append_data_ c' = [] /\
       value_size_estimation_ c' = value_size_estimation_ c /\
       next_block_size_ c' = next_block_size_ c /\
       forall i, observe mem c' i = Throw out_of_range).
Proof.
  split.
  - intros c Hn. eexists. split; [reflexivity|]. split; [done|].
    split; [|split].
    + unfold ColumnFixedString.Size. cbn.
      destruct (Z.eqb_spec (ColumnFixedString.string_size_ c) 0); [lia|].
      by rewrite Z.div_0_l by lia.
    + unfold FixedSpec.holds. cbn. split; [done|]. split; [constructor|].
      split; [done|]. vm_compute. congruence.
    + intros i. unfold FixedSpec.observe, ColumnFixedString.At.
      cbn. unfold basic_string.size. cbn. change (len []) with 0.
      destruct (Z.ltb_spec (wrap (i * ColumnFixedString.string_size_ c)) 0)
        as [Hneg|]; [|reflexivity].
      pose proof (Z.mod_pos_bound (i * ColumnFixedString.string_size_ c)
                    (2 ^ 64) eq_refl).
      unfold wrap in Hneg. lia.
  - intros mem c Hwf. eexists. split; [reflexivity|].
    split; [apply (wf_Clear mem c Hwf)|]. do 5 (split; [reflexivity|]).
    intros i. unfold observe, At. cbn [Clear]. cbv [bind modify snd].
    cbn [set_items set_blocks set_append_data items_ length Z.of_nat].
    rewrite lookup_nil. by destruct (i <? Z.of_nat 0).
Qed.

Lemma clear_empties_column_witness :
  (exists c',
     ColumnFixedString.Clear FixedSpec.two_row_column = (Ret tt, c') /\
     ColumnFixedString.Size c' = Ret 0) /\
  (exists c',
     Clear full_block_column = (Ret tt, c') /\ Size c' = 0 /\
     blocks_ c' = []).
Proof.
  destruct clear_empties_column as [HF HS]. split.
  - destruct (HF FixedSpec.two_row_column) as (c' & Hrun & _ & Hsz & _).
    + vm_compute. reflexivity.
    + exists c'. split; [exact Hrun | exact Hsz].
  - destruct (HS [] full_block_column (wf_full_block_column []))
      as (c' & Hrun & _ & Hsz & Hb & _).
    exists c'. split; [exact Hrun|]. split; [exact Hsz | exact Hb].
Defined.

(** X21.  [ColumnString::Swap] exchanges the views, the blocks and the
    owned buffers of two columns, and both satisfy the invariant
    afterwards; each column keeps its own size estimate and its own
    planned block size.  [Swap] with a column of the other kind throws
    [bad_cast] and changes neither column. *)
Theorem swap_keeps_own_estimates :
  (forall (mem : caller_memory) (a b : t),
     wf mem a -> wf mem b ->
     exists a' b',
       Swap (a, IsString b : Column) = (Ret tt, (a', IsString b')) /\
       wf mem a' /\ wf mem b' /\
       items_ a' = items_ b /\ items_ b' = items_ a /\
       blocks_ a' = blocks_ b /\ blocks_ b' = blocks_ a /\
       append_data_ a' = append_data_ b /\ append_data_ b' = append_data_ a /\
       value_size_estimation_ a' = value_size_estimation_ a /\
       value_size_estimation_ b' = value_size_estimation_ b /\
       next_block_size_ a' = next_block_size_ a /\
       next_block_size_ b' = next_block_size_ b) /\
  (forall (f : ColumnFixedString.t) (v : t),
     ColumnFixedString.Swap (f, IsString v : Column)
     = (Throw bad_cast, (f, IsString v)) /\
     Swap (v, IsFixedString f : Column)
     = (Throw bad_cast, (v, IsFixedString f))).
Proof.
  split.
  - intros mem a b Ha Hb.
    destruct (wf_Swap mem a b Ha Hb) as (a' & b' & Hrun & Ha' & Hb').
    exists a', b'. split; [done|]. split; [done|]. split; [done|].
    cbn in Hrun. injection Hrun as <- <-. repeat split; reflexivity.
  - intros f v. split; reflexivity.
Qed.

Lemma swap_keeps_own_estimates_witness :
  exists a' b',
    Swap (full_block_column, IsString owning_column : Column)
    = (Ret tt, (a', IsString b')) /\
    value_size_estimation_ a' = 2 /\ value_size_estimation_ b' = 1 /\
    items_ a' = [{| sv_data := in_append_data 0; sv_len := 1 |}] /\
    items_ b' = [{| sv_data := in_block 0 0; sv_len := 2 |}] /\
    append_data_ a' = [[x61]].
Proof.
  destruct swap_keeps_own_estimates as [HS _].
  destruct (HS [] full_block_column owning_column)
    as (a' & b' & Hrun & _ & _ & Hi & Hi' & _ & _ & Ha & _ & He & He' & _).
  - apply wf_full_block_column.
  - split; [constructor|]. split; [|vm_compute; split; congruence].
    repeat constructor; try (vm_compute; congruence).
    exists [x61]. split; [reflexivity | vm_compute; congruence].
  - exists a', b'. split; [exact Hrun|]. split; [exact He|].
    split; [exact He'|]. split; [exact Hi|]. split; [exact Hi' | exact Ha].
Defined.

End StringFurtherResults.
